(** * Pepper music player: tags, play orders and the screenshot helper

    A shallow embedding of
    - [pepper_music_player/metadata/tag.py]  (module [Tag]),
    - [pepper_music_player/player/order.py]  (module [Order]),
    - [pepper_music_player/ui/screenshot_testlib.py] (module [ScreenshotTestlib]),
    preceded by the small part of the Python runtime these files rely on
    (module [Py]: text, exceptions, insertion-ordered dicts, iterables,
    [collections.Counter], sequence indexing, [functools.reduce], [str.join]).

    The text of tags, which the track number pattern reads character by
    character, is a [Py.str]: a list of Unicode code points.  Text that is only
    compared, joined or split at [/] (tokens, messages, paths, the
    environment) is a [string].  Python [int] is [Z], lengths and counts are
    [nat]. *)

From Stdlib Require Import String Ascii List ZArith NArith Lia Bool Arith PeanoNat.
From Stdlib.Strings Require Import Byte.
Import ListNotations.
Local Open Scope string_scope.
Local Open Scope list_scope.
Local Open Scope nat_scope.

(* ===================================================================== *)
(** * Part I: definitions                                                 *)
(* ===================================================================== *)

(** ** The Python runtime used by the sources *)

Module Py.

(** Hashable keys: all that a dict needs of them here is decidable equality. *)
Class EqDec (A : Type) := eq_dec : forall x y : A, {x = y} + {x <> y}.

#[export] Instance string_EqDec : EqDec string := string_dec.
#[export] Instance nat_EqDec : EqDec nat := Nat.eq_dec.
#[export] Instance N_EqDec : EqDec N := N.eq_dec.

#[export] Instance prod_EqDec {A B} `{EqDec A} `{EqDec B} : EqDec (A * B).
Proof. intros [a b] [a' b']. destruct (eq_dec a a'), (eq_dec b b'); [left|right..]; congruence. Defined.

#[export] Instance list_EqDec {A} `{EqDec A} : EqDec (list A) := list_eq_dec eq_dec.

(** ** Text

    A Python [str] is a sequence of Unicode code points. *)

Definition codepoint : Type := N.
Definition str : Type := list codepoint.

#[export] Instance str_EqDec : EqDec str := list_eq_dec N.eq_dec.

(** [ord(c)] for a one-character [str]. *)
Definition ord (c : str) : codepoint := hd 0%N c.

(** The [str] of a [string], character by character. *)
Definition str_of_string (s : string) : str :=
  map N_of_ascii (list_ascii_of_string s).

(** A [str] written in quotes in this file: ASCII text, every byte of which
    is the code point of its character. *)
Inductive literal : Type :=
| literal_nil
| literal_cons (c : N) (s : literal).

Fixpoint literal_of_bytes (bytes : list Byte.byte) : option literal :=
  match bytes with
  | [] => Some literal_nil
  | b :: bytes' =>
      if (Byte.to_N b <? 128)%N
      then match literal_of_bytes bytes' with
           | Some s => Some (literal_cons (Byte.to_N b) s)
           | None => None
           end
      else None
  end.

Fixpoint bytes_of_literal (s : literal) : option (list Byte.byte) :=
  match s with
  | literal_nil => Some []
  | literal_cons c s' =>
      match Byte.of_N c, bytes_of_literal s' with
      | Some b, Some bytes => if (c <? 128)%N then Some (b :: bytes) else None
      | _, _ => None
      end
  end.

(** ** The Unicode character data base

    [\d] in a [str] pattern matches the characters that the character data
    base of the interpreter ([unicodedata]) has as decimal digits.  The data
    base is not part of the sources and has more decimal digits with every
    version of Unicode; in every version the decimal digits below U+0100 are
    the ten ASCII digits. *)
Record unicodedata : Type :=
  { decimal : codepoint -> bool;
    decimal_latin1 :
      forall c, (c < 256)%N -> decimal c = ((48 <=? c) && (c <=? 57))%N }.

(** ** Iterables

    What a parameter of type [Iterable] can be given: a collection with a
    length (a list, a tuple, a set), which is true when it is not empty, or
    an iterator (a generator, [iter(...)], [map(...)]), which is true whatever
    it yields, also when it yields nothing. *)
Record Iterable (A : Type) : Type := iterable
  { one_shot : bool;
    elements : list A }.
Arguments iterable {A} one_shot elements.
Arguments one_shot {A} _.
Arguments elements {A} _.

(** [bool(x)] *)
Definition truth {A} (x : Iterable A) : bool :=
  one_shot x || match elements x with [] => false | _ :: _ => true end.

(** ** Exceptions and state

    A computation that reads and updates a state of type [St] and either
    returns a value or raises an exception of type [E].  The state that an
    exception leaves behind is kept, as in Python. *)

Inductive result (E A : Type) : Type :=
| Return (a : A)
| Raise (e : E).
Arguments Return {E A} a.
Arguments Raise {E A} e.

Definition Eff (St E A : Type) : Type := St -> result E A * St.

Definition ret {St E A} (a : A) : Eff St E A := fun s => (Return a, s).

Definition raise {St E A} (e : E) : Eff St E A := fun s => (Raise e, s).

Definition bind {St E A B} (c : Eff St E A) (k : A -> Eff St E B) : Eff St E B :=
  fun s =>
    match c s with
    | (Return a, s') => k a s'
    | (Raise e, s') => (Raise e, s')
    end.

(** [try: c  except ...: handler]; [handler e = None] when no [except]
    clause matches [e], which then keeps propagating. *)
Definition try_except {St E A} (c : Eff St E A) (handler : E -> option (Eff St E A))
  : Eff St E A :=
  fun s =>
    match c s with
    | (Return a, s') => (Return a, s')
    | (Raise e, s') =>
        match handler e with
        | Some h => h s'
        | None => (Raise e, s')
        end
    end.

Definition get_state {St E} : Eff St E St := fun s => (Return s, s).
Definition put_state {St E} (s : St) : Eff St E unit := fun _ => (Return tt, s).

(** A pure call that may raise. *)
Definition lift {St E A} (r : result E A) : Eff St E A := fun s => (r, s).

Declare Scope eff_scope.
Delimit Scope eff_scope with eff.
Notation "x <- c ;; k" := (bind c (fun x => k))
  (at level 61, c at next level, right associativity) : eff_scope.
Notation "c ;; k" := (bind c (fun _ => k))
  (at level 61, right associativity) : eff_scope.

(** ** Insertion-ordered dicts *)

Section Dict.
Context {K V : Type} `{EqDec K}.

Definition dict := list (K * V).

Fixpoint get (d : dict) (k : K) : option V :=
  match d with
  | [] => None
  | (k', v) :: d' => if eq_dec k k' then Some v else get d' k
  end.

(** [d[k] = v]: an existing key keeps its position, a new key goes last. *)
Fixpoint set (d : dict) (k : K) (v : V) : dict :=
  match d with
  | [] => [(k, v)]
  | (k', v') :: d' =>
      if eq_dec k k' then (k, v) :: d' else (k', v') :: set d' k v
  end.

Definition contains (d : dict) (k : K) : bool :=
  match get d k with Some _ => true | None => false end.

(** [d.get(k, default)] *)
Definition get_default (d : dict) (k : K) (default : V) : V :=
  match get d k with Some v => v | None => default end.

Definition items (d : dict) : list (K * V) := d.
Definition keys (d : dict) : list K := map fst d.

(** [{key: value for key, value in kvs}] *)
Definition of_items (kvs : list (K * V)) : dict :=
  fold_left (fun d kv => set d (fst kv) (snd kv)) kvs [].
End Dict.
Arguments dict : clear implicits.

(** ** [collections.Counter] *)

Section Counter.
Context {A : Type} `{EqDec A}.

Definition Counter := dict A nat.

(** [c[elem]], with the count of a missing element being zero. *)
Definition Counter_getitem (c : Counter) (elem : A) : nat :=
  get_default c elem 0.

(** [Counter(iterable)] *)
Definition Counter_init (iterable : list A) : Counter :=
  fold_left (fun c elem => set c elem (Counter_getitem c elem + 1)) iterable [].

(** [c & other]: the minimum of the two counts, kept when positive. *)
Definition Counter_and (c other : Counter) : Counter :=
  fold_left
    (fun result item =>
       let '(elem, count) := item in
       let other_count := Counter_getitem other elem in
       let newcount := if count <? other_count then count else other_count in
       if 0 <? newcount then set result elem newcount else result)
    (items c) [].

(** [c.elements()]: every element repeated as many times as its count. *)
Definition Counter_elements (c : Counter) : list A :=
  flat_map (fun item => repeat (fst item) (snd item)) (items c).
End Counter.
Arguments Counter : clear implicits.

(** [functools.reduce(function, sequence)] without an initial value; there
    is no result ([TypeError]) on an empty sequence. *)
Definition reduce {A} (function : A -> A -> A) (sequence : list A) : option A :=
  match sequence with
  | [] => None
  | x :: xs => Some (fold_left function xs x)
  end.

(** [separator.join(strings)] *)
Fixpoint join (separator : str) (strings : list str) : str :=
  match strings with
  | [] => []
  | [s] => s
  | s :: rest => s ++ separator ++ join separator rest
  end.

(** [sequence[i]] for a Python [int]: a negative index counts from the end,
    anything else out of range is an [IndexError] ([None] here). *)
Definition getitem {A} (sequence : list A) (i : Z) : option A :=
  let len := Z.of_nat (length sequence) in
  if (0 <=? i)%Z && (i <? len)%Z then nth_error sequence (Z.to_nat i)
  else if (- len <=? i)%Z && (i <? 0)%Z then nth_error sequence (Z.to_nat (len + i))
  else None.

(** [enumerate(sequence)] *)
Fixpoint enumerate_from {A} (start : nat) (sequence : list A) : list (nat * A) :=
  match sequence with
  | [] => []
  | x :: xs => (start, x) :: enumerate_from (S start) xs
  end.
Definition enumerate {A} (sequence : list A) : list (nat * A) :=
  enumerate_from 0 sequence.

End Py.
Import Py.

(** Quoted text where a [Py.str] is expected, and the two kinds of iterable. *)
Declare Scope str_scope.
Delimit Scope str_scope with str.
Bind Scope str_scope with Py.str.
#[warnings="-via-type-mismatch,-via-type-remapping"]
String Notation Py.str Py.literal_of_bytes Py.bytes_of_literal
  (via Py.literal mapping [[nil] => Py.literal_nil, [cons] => Py.literal_cons])
  : str_scope.
Abbreviation Collection := (iterable false).
Abbreviation Iterator := (iterable true).

(** ** [metadata/tag.py] *)

Module Re.

(** The fragment of [re] patterns that [tag.py] uses. *)
Inductive regex : Type :=
| Digit                             (* \d *)
| Chr (c : codepoint)               (* a literal character *)
| Seq (r1 r2 : regex)               (* r1 r2 *)
| Plus (r : regex)                  (* r+, greedy *)
| Opt (r : regex)                   (* r?, greedy *)
| Group (name : string) (r : regex) (* (?P<name>r) *).

(** The named groups that took part in a match, with the text they matched. *)
Definition groups := dict string str.

(** The part of [s] that was consumed when [rest] is what is left of it. *)
Definition consumed (s rest : str) : str :=
  firstn (length s - length rest) s.

Section Matching.
Variable ucd : unicodedata.

(** [\d]: a decimal digit of the character data base. *)
Definition is_digit (c : codepoint) : bool := decimal ucd c.

(** Backtracking matcher: [run r s g k] matches [r] at the start of [s] and
    hands what is left, with the groups so far, to the continuation [k];
    when [k] fails the next alternative of [r] is tried, longest first. *)
Fixpoint run (r : regex) (s : str) (g : groups)
    (k : str -> groups -> option groups) {struct r} : option groups :=
  match r with
  | Digit =>
      match s with
      | c :: s' => if is_digit c then k s' g else None
      | [] => None
      end
  | Chr c =>
      match s with
      | c' :: s' => if N.eqb c c' then k s' g else None
      | [] => None
      end
  | Seq r1 r2 => run r1 s g (fun s' g' => run r2 s' g' k)
  | Plus r' =>
      (fix loop (fuel : nat) (s : str) (g : groups) : option groups :=
         match fuel with
         | O => None
         | S fuel' =>
             run r' s g (fun s' g' =>
               let again :=
                 if length s' <? length s
                 then loop fuel' s' g' else None in
               match again with
               | Some m => Some m
               | None => k s' g'
               end)
         end) (S (length s)) s g
  | Opt r' =>
      match run r' s g k with
      | Some m => Some m
      | None => k s g
      end
  | Group name r' =>
      run r' s g (fun s' g' => k s' (set g' name (consumed s s')))
  end.

(** [pattern.fullmatch(s)]: the whole of [s] has to be consumed. *)
Definition fullmatch (pattern : regex) (s : str) : option groups :=
  run pattern s []
      (fun rest g => match rest with [] => Some g | _ :: _ => None end).
End Matching.

(** [match.group(name)] *)
Definition group (m : groups) (name : string) : option str := get m name.

End Re.

Module Tag.
Local Open Scope str_scope.

(** [class TagName(enum.Enum)] *)
Inductive TagName : Type :=
| ALBUM
| ALBUMARTIST
| MUSICBRAINZ_ALBUMID
| TRACKNUMBER.

(** [TagName.value] *)
Definition value (tag_name : TagName) : str :=
  match tag_name with
  | ALBUM => "album"
  | ALBUMARTIST => "albumartist"
  | MUSICBRAINZ_ALBUMID => "musicbrainz_albumid"
  | TRACKNUMBER => "tracknumber"
  end.

(** [ArbitraryTagName = Union[TagName, str]] *)
Inductive ArbitraryTagName : Type :=
| Name (tag_name : TagName)
| Str (tag_name : str).

Definition _tag_name_str (tag_name : ArbitraryTagName) : str :=
  match tag_name with
  | Name n => value n
  | Str s => s
  end.

(** [class Tags]: a frozen dict from a tag name to the tuple of its values. *)
Definition Tags := dict str (list str).

(** [Tags.__init__]: [{name: tuple(values) for name, values in tags.items()}] *)
Definition Tags_init (tags : dict str (list str)) : Tags :=
  of_items (items tags).

(** [Tags.__getitem__]; [None] is [KeyError]. *)
Definition Tags_getitem (self : Tags) (key : ArbitraryTagName) : option (list str) :=
  get self (_tag_name_str key).

(** [Tags.__contains__] *)
Definition Tags_contains (self : Tags) (key : ArbitraryTagName) : bool :=
  contains self (_tag_name_str key).

(** [Mapping.get], which [Tags] inherits: it goes through [__getitem__]. *)
Definition Tags_get (self : Tags) (key : ArbitraryTagName) (default : list str)
  : list str :=
  match Tags_getitem self key with
  | Some values => values
  | None => default
  end.

Definition one_or_none (self : Tags) (key : ArbitraryTagName) : option str :=
  let values := Tags_get self key [] in
  match values with
  | [v] => Some v
  | _ => None
  end.

Definition singular (self : Tags) (key : ArbitraryTagName)
    (default : str) (separator : str) : str :=
  join separator (Tags_get self key [default]).

(** The keyword defaults of [singular]. *)
Definition singular_default_default : str := "[unknown]".
Definition singular_default_separator : str := "; ".
Definition singular' (self : Tags) (key : ArbitraryTagName) : str :=
  singular self key singular_default_default singular_default_separator.

(** [(?P<tracknumber>\d+)(?:/(?P<totaltracks>\d+))?] *)
Definition _TRACKNUMBER_REGEX : Re.regex :=
  Re.Seq (Re.Group "tracknumber" (Re.Plus Re.Digit))
         (Re.Opt (Re.Seq (Re.Chr (ord "/"))
                         (Re.Group "totaltracks" (Re.Plus Re.Digit)))).

(** [Tags.tracknumber], with the character data base that [re] consults. *)
Definition tracknumber (ucd : unicodedata) (self : Tags) : option str :=
  match one_or_none self (Name TRACKNUMBER) with
  | None => None
  | Some tracknumber =>
      match Re.fullmatch ucd _TRACKNUMBER_REGEX tracknumber with
      | None => Some tracknumber
      | Some m => Re.group m "tracknumber"
      end
  end.

(** The [(name, value)] pairs of one component, in item order. *)
Definition tag_pairs (component_tags : Tags) : list (str * str) :=
  flat_map (fun item => map (fun value => (fst item, value)) (snd item))
           (items component_tags).

(** [tags = defaultdict(list); for name, value in pairs: tags[name].append(value)] *)
Definition group_by_name (pairs : list (str * str)) : dict str (list str) :=
  fold_left
    (fun tags pair => set tags (fst pair) (get_default tags (fst pair) [] ++ [snd pair]))
    pairs [].

(** [compose]; [None] stands for an exception escaping the function, which
    can only be the [TypeError] of [functools.reduce] on an empty sequence. *)
Definition compose (components_tags : Iterable Tags) : option Tags :=
  if negb (truth components_tags) then Some (Tags_init [])
  else
    let tag_pair_counters :=
      map (fun component_tags => Counter_init (tag_pairs component_tags))
          (elements components_tags) in
    match reduce Counter_and tag_pair_counters with
    | None => None
    | Some common_tag_pair_counter =>
        Some (Tags_init (group_by_name (Counter_elements common_tag_pair_counter)))
    end.

End Tag.

(** ** [metadata/entity.py], [metadata/token.py], [player/playlist.py] *)

Module Entity.

(** Modelled from the spec: [metadata/token.py] is not among the sources; a
    library token is an opaque, hashable, comparable identifier. *)
Definition LibraryToken : Type := string.

(** Modelled from the spec: [metadata/entity.py] is not among the sources; a
    track carries its tags and an identity token, a playlist entry references
    a library token and carries positional information, and a playable unit
    pairs a track with the playlist entry it is played from. *)
Record Track : Type := { tags : Tag.Tags; token : LibraryToken }.
Record PlaylistEntry : Type := { library_token : LibraryToken; position : nat }.
Record PlayableUnit : Type := { track : Track; playlist_entry : PlaylistEntry }.

End Entity.

(** ** [player/order.py] *)

Module Order.
Import Entity.
Local Open Scope eff_scope.

(** What a [StopError] was raised with. *)
Inductive StopMessage : Type :=
| EntryNotFound  (* 'Current playlist entry not found.' *)
| TrackNotFound (current_track : Track) (library_token : LibraryToken)
    (* 'Current track ... does not exist in current library entity ....' *).

(** The exceptions that reach this module: the two lookup failures, the
    module's own [StopError], and whatever else a playlist may raise. *)
Inductive exn : Type :=
| KeyError
| IndexError
| StopError (message : StopMessage)
| OtherError (description : string).

(** [class ErrorPolicy(enum.Enum)]; [DEFAULT] is an alias of [RETURN_NONE]. *)
Inductive ErrorPolicy : Type :=
| RETURN_NONE
| RAISE_STOP_ERROR.
Definition DEFAULT : ErrorPolicy := RETURN_NONE.

(** What [logging.exception] records: the message and the exception. *)
Definition LogRecord : Type := (string * exn)%type.
Definition Log : Type := list LogRecord.

Definition M (A : Type) : Type := Eff Log exn A.

Definition logging_exception (msg : string) (e : exn) : M unit :=
  fun log => (Return tt, log ++ [(msg, e)]).

(** Modelled from the spec: [player/playlist.py] is not among the sources;
    [playable_units(entry)] returns the ordered playable units of an entry and
    fails with a lookup failure ([KeyError]) when the entry is not in the
    playlist. *)
Record Playlist : Type :=
  { playable_units : PlaylistEntry -> result exn (list PlayableUnit) }.

(** The decorator [handle_stop_error]; [function] takes the positional
    arguments and the [error_policy] keyword. *)
Definition handle_stop_error {Args T : Type}
    (function : Args -> ErrorPolicy -> M (option T))
  : Args -> ErrorPolicy -> M (option T) :=
  fun args error_policy =>
    try_except (function args RAISE_STOP_ERROR)
      (fun e =>
         match e with
         | StopError _ =>
             Some (match error_policy with
                   | RAISE_STOP_ERROR => raise e
                   | RETURN_NONE =>
                       logging_exception "Stopping due to error." e ;;
                       ret None
                   end)
         | _ => None
         end).

(** [class Order]: the playlist the order is following. *)
Record Order : Type := { playlist : Playlist }.

(** [class LinearEntry(Order)] *)
Definition LinearEntry : Type := Order.

(** [{unit.track.token: index for index, unit in enumerate(units)}] *)
Definition token_index (units : list PlayableUnit) : dict LibraryToken nat :=
  of_items (map (fun iu => (token (track (snd iu)), fst iu)) (enumerate units)).

Definition _unit_in_same_entry (self : LinearEntry)
    (current : option PlayableUnit) (offset : Z) : M (option PlayableUnit) :=
  match current with
  | None => ret None
  | Some current =>
      units <- try_except
                 (lift (playable_units (playlist self) (playlist_entry current)))
                 (fun e => match e with
                           | KeyError => Some (raise (StopError EntryNotFound))
                           | _ => None
                           end) ;;
      index <- match get (token_index units) (token (track current)) with
               | Some index => ret index
               | None =>
                   raise (StopError
                            (TrackNotFound (track current)
                               (library_token (playlist_entry current))))
               end ;;
      if ((0 <=? Z.of_nat index + offset)
          && (Z.of_nat index + offset <? Z.of_nat (length units)))%Z
      then match getitem units (Z.of_nat index + offset) with
           | Some unit => ret (Some unit)
           | None => raise IndexError
           end
      else ret None
  end.

(** The undecorated [LinearEntry.next] and [LinearEntry.previous]. *)
Definition next_function (args : LinearEntry * option PlayableUnit)
    (error_policy : ErrorPolicy) : M (option PlayableUnit) :=
  let '(self, current) := args in
  (* del error_policy *)
  _unit_in_same_entry self current 1.

Definition previous_function (args : LinearEntry * option PlayableUnit)
    (error_policy : ErrorPolicy) : M (option PlayableUnit) :=
  let '(self, current) := args in
  (* del error_policy *)
  _unit_in_same_entry self current (-1).

(** [LinearEntry.next] and [LinearEntry.previous] as callers see them. *)
Definition next (self : LinearEntry) (current : option PlayableUnit)
    (error_policy : ErrorPolicy) : M (option PlayableUnit) :=
  handle_stop_error next_function (self, current) error_policy.

Definition previous (self : LinearEntry) (current : option PlayableUnit)
    (error_policy : ErrorPolicy) : M (option PlayableUnit) :=
  handle_stop_error previous_function (self, current) error_policy.

End Order.

(** ** [ui/screenshot_testlib.py] *)

(** The part of [pathlib] (POSIX flavour) and of the file system that the
    helper uses.  A path names a file-system object as it is written: there is
    no current directory, symbolic link or [..] resolution, and the file
    system is taken to hold, as directories, the paths above every object it
    holds, so that creating an object looks at its parent only. *)

Module Pathlib.

(** [str.split(sep)] for a one-character separator. *)
Fixpoint split (sep : ascii) (s : string) : list string :=
  match s with
  | EmptyString => [EmptyString]
  | String c s' =>
      if Ascii.eqb c sep then EmptyString :: split sep s'
      else match split sep s' with
           | [] => [String c EmptyString]
           | word :: words => String c word :: words
           end
  end.

(** The number of leading [/] of a string. *)
Fixpoint leading_slashes (s : string) : nat :=
  match s with
  | String c s' => if Ascii.eqb c "/" then S (leading_slashes s') else 0
  | EmptyString => 0
  end.

(** A pure POSIX path: its root ([""], ["/"] or ["//"]) and its components. *)
Record Path : Type := { root : string; names : list string }.

#[global] Instance Path_EqDec : EqDec Path.
Proof.
  intros [r1 n1] [r2 n2].
  destruct (string_dec r1 r2), (list_eq_dec string_dec n1 n2);
    [left|right..]; congruence.
Defined.

(** [pathlib.Path(s)]: exactly two leading slashes are kept as the root,
    empty and ["."] components are dropped. *)
Definition Path_init (s : string) : Path :=
  {| root := match leading_slashes s with
             | 0 => ""
             | 2 => "//"
             | _ => "/"
             end;
     names := filter (fun name => negb (String.eqb name "" || String.eqb name "."))
                     (split "/" s) |}.

(** [self.joinpath(other)]: an anchored [other] replaces [self]. *)
Definition joinpath (self : Path) (other : string) : Path :=
  let other := Path_init other in
  if String.eqb (root other) "" then
    {| root := root self; names := names self ++ names other |}
  else other.

(** [self.parent]; the parent of a path without components is itself. *)
Definition parent (self : Path) : Path :=
  {| root := root self; names := removelast (names self) |}.

End Pathlib.

Module ScreenshotTestlib.
Import Pathlib.
Local Open Scope eff_scope.

(** A [Gtk.Widget] is an opaque handle. *)
Definition Widget : Type := nat.

(** [Gtk.OffscreenWindow]: the widget it holds and whether it is shown. *)
Record OffscreenWindow : Type := { child : option Widget; shown : bool }.

(** What [window.get_surface()] holds: the rendering of the window. *)
Inductive Surface : Type := Rendering (window : OffscreenWindow).

(** The content of a PNG file: the encoding of a surface. *)
Inductive Png : Type := PngOf (surface : Surface).

Inductive Node : Type :=
| Dir
| File (content : Png).

(** The environment, the file system and the GTK main loop. *)
Record World : Type :=
  { environ : dict string string;
    fs : dict Path Node;
    main_loop_runs : nat }.

Inductive exn : Type :=
| FileNotFoundError
| FileExistsError
| NotADirectoryError
| IsADirectoryError.

Definition IO (A : Type) : Type := Eff World exn A.

Definition set_fs (w : World) (fs' : dict Path Node) : World :=
  {| environ := environ w; fs := fs'; main_loop_runs := main_loop_runs w |}.

(** [os.getenv(name)] *)
Definition os_getenv (name : string) : IO (option string) :=
  fun w => (Return (get (environ w) name), w).

(** [os.mkdir(path)] *)
Definition os_mkdir (path : Path) : IO unit :=
  fun w =>
    match get (fs w) (parent path) with
    | None => (Raise FileNotFoundError, w)
    | Some (File _) => (Raise NotADirectoryError, w)
    | Some Dir =>
        match get (fs w) path with
        | Some _ => (Raise FileExistsError, w)
        | None => (Return tt, set_fs w (set (fs w) path Dir))
        end
    end.

(** [path.is_dir()] *)
Definition is_dir (path : Path) : IO bool :=
  fun w => (Return (match get (fs w) path with Some Dir => true | _ => false end), w).

(** [path.mkdir(exist_ok=exist_ok)], with [parents] left at [False]: a
    missing parent is an error, an existing directory is not when
    [exist_ok]. *)
Definition Path_mkdir (path : Path) (exist_ok : bool) : IO unit :=
  try_except (os_mkdir path)
    (fun e =>
       match e with
       | FileNotFoundError => Some (raise e)
       | _ =>
           Some (d <- is_dir path ;;
                 if negb exist_ok || negb d then raise e else ret tt)
       end).

(** [surface.write_to_png(path)]: the file is created or overwritten. *)
Definition write_to_png (surface : Surface) (path : Path) : IO unit :=
  fun w =>
    match get (fs w) (parent path) with
    | None => (Raise FileNotFoundError, w)
    | Some (File _) => (Raise NotADirectoryError, w)
    | Some Dir =>
        match get (fs w) path with
        | Some Dir => (Raise IsADirectoryError, w)
        | _ => (Return tt, set_fs w (set (fs w) path (File (PngOf surface))))
        end
    end.

(** [GLib.idle_add(Gtk.main_quit); Gtk.main()]: one pass of the main loop. *)
Definition Gtk_main_once : IO unit :=
  fun w => (Return tt,
            {| environ := environ w; fs := fs w;
               main_loop_runs := S (main_loop_runs w) |}).

(** [Gtk.OffscreenWindow()], [window.add(widget)], [window.show_all()] and
    [window.get_surface()].  The widget that is added is taken to have no
    parent yet: GTK leaves a widget that is already in a container where it
    is. *)
Definition OffscreenWindow_new : OffscreenWindow := {| child := None; shown := false |}.
Definition add (window : OffscreenWindow) (widget : Widget) : OffscreenWindow :=
  {| child := Some widget; shown := shown window |}.
Definition show_all (window : OffscreenWindow) : OffscreenWindow :=
  {| child := child window; shown := true |}.
Definition get_surface (window : OffscreenWindow) : Surface := Rendering window.

Definition register_widget (module_name screenshot_name : string)
    (widget : Widget) : IO unit :=
  let window := OffscreenWindow_new in
  let window := add window widget in
  let window := show_all window in
  Gtk_main_once ;;
  artifact_dir <- os_getenv "TEST_ARTIFACT_DIR" ;;
  match artifact_dir with
  | None => ret tt
  | Some artifact_dir =>
      let screenshot_dir := joinpath (Path_init artifact_dir) "screenshots" in
      Path_mkdir screenshot_dir true ;;
      write_to_png (get_surface window)
        (joinpath screenshot_dir
                  (module_name ++ "." ++ screenshot_name ++ ".png")%string)
  end.

End ScreenshotTestlib.

(** ** What the properties are stated with

    The notions that the statements of Part II use: multiplicities of tag
    pairs, the track number pattern, positions in a list of playable units,
    the paths of the screenshot files, and a few concrete playlists and
    worlds. *)

Module TagSpec.
Import Tag.

(** How many times a [(name, value)] pair occurs in some tags. *)
Definition multiplicity (pair : str * str) (t : Tags) : nat :=
  count_occ eq_dec (tag_pairs t) pair.

(** The minimum of the multiplicities of a pair over all the components. *)
Definition min_multiplicity (pair : str * str)
    (component : Tags) (others : list Tags) : nat :=
  fold_right (fun c m => Nat.min (multiplicity pair c) m)
             (multiplicity pair component) others.

(** How many times [value] is among the values that looking [name] up in
    some tags gives; none when the name is not there. *)
Definition value_count (t : Tags) (name value : str) : nat :=
  count_occ eq_dec (Tags_get t (Str name) []) value.

(** The minimum of these numbers over all the components. *)
Definition min_value_count (name value : str)
    (component : Tags) (others : list Tags) : nat :=
  fold_right (fun c m => Nat.min (value_count c name value) m)
             (value_count component name value) others.

End TagSpec.

Module TrackNumberSpec.
Local Open Scope str_scope.

Section Digits.
Variable ucd : unicodedata.

Fixpoint all_digits (s : str) : bool :=
  match s with
  | [] => true
  | c :: s' => decimal ucd c && all_digits s'
  end.

(** [<digits>]: one or more decimal digits and nothing else. *)
Definition digits (s : str) : Prop := s <> "" /\ all_digits s = true.

(** [v] is [<digits>], optionally followed by [/<digits>]; [number] is the
    first [<digits>]. *)
Definition tracknumber_pattern (v number : str) : Prop :=
  digits number /\
  (v = number \/ exists total, digits total /\ v = number ++ "/" ++ total).

(** The leading run of digits of a text, and what follows it. *)
Fixpoint leading_digits (s : str) : str :=
  match s with
  | c :: s' => if decimal ucd c then c :: leading_digits s' else ""
  | [] => ""
  end.

Fixpoint after_digits (s : str) : str :=
  match s with
  | c :: s' => if decimal ucd c then after_digits s' else s
  | [] => ""
  end.

(** The pattern as a test: there are leading digits, followed by nothing
    or by a slash and one or more digits up to the end. *)
Definition shape (s : str) : bool :=
  match leading_digits s, after_digits s with
  | [], _ => false
  | _ :: _, [] => true
  | _ :: _, c :: r =>
      N.eqb (ord "/") c && match r with [] => false | _ :: _ => true end
      && all_digits r
  end.
End Digits.

(** Two character data bases to run the examples with: one in which the
    ASCII digits are the only decimal digits, and one that also has the
    Arabic-Indic digits U+0660 to U+0669. *)
Definition ascii_decimal (c : codepoint) : bool :=
  ((48 <=? c) && (c <=? 57))%N.

Definition ascii_only : unicodedata :=
  {| decimal := ascii_decimal; decimal_latin1 := fun c _ => eq_refl |}.

Definition arabic_indic_decimal (c : codepoint) : bool :=
  ascii_decimal c || ((1632 <=? c) && (c <=? 1641))%N.

Definition arabic_indic_latin1 (c : codepoint) (below : (c < 256)%N)
  : arabic_indic_decimal c = ascii_decimal c.
Proof.
  unfold arabic_indic_decimal.
  destruct (N.leb_spec 1632 c) as [Hle|Hlt]; [lia|]. simpl. apply orb_false_r.
Defined.

Definition with_arabic_indic : unicodedata :=
  {| decimal := arabic_indic_decimal; decimal_latin1 := arabic_indic_latin1 |}.

End TrackNumberSpec.

Module OrderSpec.
Import Entity Order.

(** [index] is the last position of [units] at which the track has the
    token [tok]. *)
Definition last_position (units : list PlayableUnit) (tok : LibraryToken)
    (index : nat) : Prop :=
  (exists unit, nth_error units index = Some unit /\ token (track unit) = tok) /\
  (forall j unit, index < j -> nth_error units j = Some unit ->
                  token (track unit) <> tok).

(** The unit at position [i] when [0 <= i < len(units)], absent otherwise. *)
Definition unit_at (units : list PlayableUnit) (i : Z) : option PlayableUnit :=
  if ((0 <=? i) && (i <? Z.of_nat (length units)))%Z
  then nth_error units (Z.to_nat i)
  else None.

(** The last position with the token, computed from the end of the list. *)
Fixpoint last_index (tok : LibraryToken) (units : list PlayableUnit) : option nat :=
  match units with
  | [] => None
  | unit :: units' =>
      match last_index tok units' with
      | Some j => Some (S j)
      | None => if eq_dec (token (track unit)) tok then Some 0 else None
      end
  end.

(** A playlist given by the units of each of its entries. *)
Definition playlist_of (entries : list (PlaylistEntry * list PlayableUnit)) : Playlist :=
  {| playable_units := fun entry =>
       match find (fun eu => Nat.eqb (position (fst eu)) (position entry)
                             && String.eqb (library_token (fst eu)) (library_token entry))
                  entries with
       | Some (_, units) => Return units
       | None => Raise KeyError
       end |}.

(** An album of three tracks, queued once; and an entry that is not queued. *)
Definition album_entry : PlaylistEntry := {| library_token := "album"; position := 0 |}.
Definition gone_entry : PlaylistEntry := {| library_token := "album"; position := 1 |}.
Definition album_unit (tok : string) : PlayableUnit :=
  {| track := {| tags := [("title"%str, [str_of_string tok])]; token := tok |};
     playlist_entry := album_entry |}.
Definition album_order : LinearEntry :=
  {| playlist := playlist_of [(album_entry, [album_unit "t1"; album_unit "t2"; album_unit "t3"])] |}.

(** A unit whose entry has been removed from the playlist. *)
Definition gone_unit : PlayableUnit :=
  {| track := track (album_unit "t1"); playlist_entry := gone_entry |}.

(** The log after the decorator has recorded a [StopError]. *)
Definition logged_stop (log : Log) (message : StopMessage) : Log :=
  log ++ [("Stopping due to error.", StopError message)].

(** The same track queued twice inside one entry. *)
Definition repeat_order : LinearEntry :=
  {| playlist := playlist_of
       [(album_entry, [album_unit "t1"; album_unit "t2"; album_unit "t1"; album_unit "t3"])] |}.

End OrderSpec.

Module ScreenshotSpec.
Import Pathlib ScreenshotTestlib.

(** A string without [/]: a single path component. *)
Fixpoint no_slash (s : string) : bool :=
  match s with
  | EmptyString => true
  | String c s' => negb (Ascii.eqb c "/") && no_slash s'
  end.

(** [<module_name>.<screenshot_name>.png] *)
Definition file_name (module_name screenshot_name : string) : string :=
  (module_name ++ "." ++ screenshot_name ++ ".png")%string.

(** [<artifact_dir>/screenshots] *)
Definition screenshots_path (artifact_dir : string) : Path :=
  {| root := root (Path_init artifact_dir);
     names := names (Path_init artifact_dir) ++ ["screenshots"] |}.

(** [<artifact_dir>/screenshots/<module_name>.<screenshot_name>.png] *)
Definition screenshot_path (artifact_dir module_name screenshot_name : string) : Path :=
  {| root := root (Path_init artifact_dir);
     names := names (Path_init artifact_dir)
              ++ ["screenshots"; file_name module_name screenshot_name] |}.

(** The paths above a path: its root, then the root with the first
    components, up to the parent. *)
Definition ancestors (path : Path) : list Path :=
  map (fun n => {| root := root path; names := firstn n (names path) |})
      (seq 0 (length (names path))).

(** The PNG of a widget shown in an off-screen window. *)
Definition screenshot_of (widget : Widget) : Png :=
  PngOf (Rendering {| child := Some widget; shown := true |}).

(** A world in which [TEST_ARTIFACT_DIR] names a directory that is not there. *)
Definition world_without_directory : World :=
  {| environ := [("TEST_ARTIFACT_DIR", "/nonexistent")];
     fs := [(Path_init "/", Dir); (Path_init "/tmp", Dir)];
     main_loop_runs := 0 |}.

(** Worlds in which it names a directory that is there, and in which it is unset. *)
Definition world_with_directory : World :=
  {| environ := [("TEST_ARTIFACT_DIR", "/tmp/artifacts")];
     fs := [(Path_init "/", Dir); (Path_init "/tmp", Dir);
            (Path_init "/tmp/artifacts", Dir)];
     main_loop_runs := 0 |}.

Definition world_unset : World :=
  {| environ := [("HOME", "/root")];
     fs := [(Path_init "/", Dir); (Path_init "/tmp", Dir)];
     main_loop_runs := 0 |}.

End ScreenshotSpec.

Module PlaySpec.
Import Entity Order.

(** The tokens of the tracks of some units, in the order of the units. *)
Definition tokens (units : list PlayableUnit) : list LibraryToken :=
  map (fun unit => token (track unit)) units.

(** What is playing after the order has been followed [steps] times from
    [current], as a player does each time a unit ends. *)
Fixpoint advance (self : LinearEntry) (steps : nat)
    (current : option PlayableUnit) (error_policy : ErrorPolicy)
  : M (option PlayableUnit) :=
  match steps with
  | O => ret current
  | S steps' =>
      bind (next self current error_policy)
           (fun unit => advance self steps' unit error_policy)
  end.

(** The message of the [StopError] for a track that is not in its entry. *)
Definition track_not_found (current : PlayableUnit) : StopMessage :=
  TrackNotFound (track current) (library_token (playlist_entry current)).

(** A playlist whose lookup fails with something else than [KeyError]. *)
Definition broken_order : LinearEntry :=
  {| playlist := {| playable_units := fun _ => Raise (OtherError "database is locked") |} |}.

End PlaySpec.

Module ScreenshotRuns.
Import Pathlib ScreenshotTestlib ScreenshotSpec.

(** The world after one pass of the main loop. *)
Definition after_main_loop (w : World) : World :=
  {| environ := environ w; fs := fs w; main_loop_runs := S (main_loop_runs w) |}.



(** A world in which [screenshots] is a regular file. *)
Definition world_with_file : World :=
  {| environ := [("TEST_ARTIFACT_DIR", "/tmp/artifacts")];
     fs := [(Path_init "/", Dir); (Path_init "/tmp", Dir);
            (Path_init "/tmp/artifacts", Dir);
            (Path_init "/tmp/artifacts/screenshots", File (screenshot_of 1))];
     main_loop_runs := 0 |}.

End ScreenshotRuns.

(* ===================================================================== *)
(** * Part II: properties                                                 *)
(* ===================================================================== *)

(** ** Dicts and counters *)

(** A property kept by every step of a loop holds when the loop ends. *)
Lemma fold_left_invariant {X St : Type} (P : St -> Prop) (f : St -> X -> St)
    (l : list X) (s : St) :
  P s -> (forall s x, P s -> P (f s x)) -> P (fold_left f l s).
Proof.
  intros Hs Hf. revert s Hs.
  induction l as [|x l IH]; simpl; intros s Hs; [exact Hs|].
  apply IH, Hf, Hs.
Qed.

Section DictFacts.
Context {K V : Type} `{EqDec K}.
Implicit Types (d : dict K V) (k : K) (v : V).

Lemma get_set_eq d k v : get (set d k v) k = Some v.
Proof.
  induction d as [|[k' v'] d IH]; simpl.
  - destruct (eq_dec k k); congruence.
  - destruct (eq_dec k k') as [->|Hne]; simpl.
    + destruct (eq_dec k' k'); congruence.
    + destruct (eq_dec k k'); [congruence|exact IH].
Qed.

Lemma get_set_neq d k k' v : k <> k' -> get (set d k v) k' = get d k'.
Proof.
  intros Hne. induction d as [|[k0 v0] d IH]; simpl.
  - destruct (eq_dec k' k); congruence.
  - destruct (eq_dec k k0) as [->|Hne0]; simpl.
    + destruct (eq_dec k' k0); congruence.
    + destruct (eq_dec k' k0); [reflexivity|exact IH].
Qed.

Lemma get_None_iff d k : get d k = None <-> ~ In k (keys d).
Proof.
  induction d as [|[k' v'] d IH]; simpl.
  - tauto.
  - destruct (eq_dec k k') as [->|Hne].
    + split; [discriminate|tauto].
    + rewrite IH. split; [intros Hn [Heq|Hin]; [congruence|tauto]|tauto].
Qed.

Lemma set_not_in d k v : ~ In k (keys d) -> set d k v = d ++ [(k, v)].
Proof.
  induction d as [|[k' v'] d IH]; simpl; intros Hn; [reflexivity|].
  destruct (eq_dec k k') as [->|Hne]; [tauto|].
  rewrite IH by tauto. reflexivity.
Qed.

Lemma keys_set_in d k v : In k (keys d) -> keys (set d k v) = keys d.
Proof.
  induction d as [|[k' v'] d IH]; simpl; intros Hin; [tauto|].
  destruct (eq_dec k k') as [->|Hne]; [reflexivity|].
  simpl. f_equal. apply IH. destruct Hin; [congruence|assumption].
Qed.

Lemma NoDup_keys_set d k v : NoDup (keys d) -> NoDup (keys (set d k v)).
Proof.
  intros Hd. destruct (in_dec eq_dec k (keys d)) as [Hin|Hn].
  - rewrite keys_set_in by assumption. exact Hd.
  - rewrite set_not_in by assumption. unfold keys. rewrite map_app. simpl.
    apply NoDup_app; [exact Hd|repeat constructor; simpl; tauto|].
    intros a Ha [<-|[]]. exact (Hn Ha).
Qed.

Lemma of_items_app (l acc : list (K * V)) :
  NoDup (keys (acc ++ l)) ->
  fold_left (fun d kv => set d (fst kv) (snd kv)) l acc = acc ++ l.
Proof.
  revert acc. induction l as [|[k v] l IH]; simpl; intros acc Hnd.
  - now rewrite app_nil_r.
  - rewrite set_not_in.
    + rewrite IH; rewrite <- app_assoc; [reflexivity|exact Hnd].
    + unfold keys in Hnd. rewrite map_app in Hnd. simpl in Hnd.
      apply NoDup_remove_2 in Hnd. intros Hin. apply Hnd.
      apply in_or_app. left. exact Hin.
Qed.

(** Building a dict from the items of a dict gives the same dict. *)
Lemma of_items_NoDup d : NoDup (keys d) -> of_items (items d) = d.
Proof. intros Hd. unfold of_items, items. now rewrite of_items_app. Qed.
End DictFacts.

Section CounterFacts.
Context {A : Type} `{EqDec A}.
Implicit Types (c : Counter A) (x : A).

Lemma Counter_getitem_set_eq c x n : Counter_getitem (set c x n) x = n.
Proof. unfold Counter_getitem, get_default. now rewrite get_set_eq. Qed.

Lemma Counter_getitem_set_neq c x y n :
  x <> y -> Counter_getitem (set c x n) y = Counter_getitem c y.
Proof. intros. unfold Counter_getitem, get_default. now rewrite get_set_neq. Qed.

Lemma Counter_getitem_not_in c x : ~ In x (keys c) -> Counter_getitem c x = 0.
Proof.
  intros Hn. apply get_None_iff in Hn.
  unfold Counter_getitem, get_default. now rewrite Hn.
Qed.

Lemma Counter_init_fold (l : list A) c x :
  Counter_getitem
    (fold_left (fun c elem => set c elem (Counter_getitem c elem + 1)) l c) x
  = Counter_getitem c x + count_occ eq_dec l x.
Proof.
  revert c. induction l as [|a l IH]; simpl; intros c; [lia|].
  rewrite IH. destruct (eq_dec a x) as [->|Hne].
  - rewrite Counter_getitem_set_eq. lia.
  - rewrite Counter_getitem_set_neq by assumption. lia.
Qed.

(** A counter counts the occurrences in the list it is made from. *)
Lemma Counter_init_count (l : list A) x :
  Counter_getitem (Counter_init l) x = count_occ eq_dec l x.
Proof. unfold Counter_init. now rewrite Counter_init_fold. Qed.

Lemma Counter_init_NoDup (l : list A) : NoDup (keys (Counter_init l)).
Proof.
  unfold Counter_init.
  apply (fold_left_invariant (fun c => NoDup (keys c))); [constructor|].
  intros c elem Hc. now apply NoDup_keys_set.
Qed.

Lemma Counter_and_NoDup c other : NoDup (keys (Counter_and c other)).
Proof.
  unfold Counter_and.
  apply (fold_left_invariant (fun c => NoDup (keys c))); [constructor|].
  intros result [elem count] Hc.
  destruct (0 <? _); [now apply NoDup_keys_set|exact Hc].
Qed.

Lemma Counter_and_fold (l : list (A * nat)) other acc x :
  NoDup (keys l) ->
  (forall k, In k (keys l) -> Counter_getitem acc k = 0) ->
  Counter_getitem
    (fold_left
       (fun result item =>
          let '(elem, count) := item in
          let other_count := Counter_getitem other elem in
          let newcount := if count <? other_count then count else other_count in
          if 0 <? newcount then set result elem newcount else result)
       l acc) x
  = match get l x with
    | Some n => Nat.min n (Counter_getitem other x)
    | None => Counter_getitem acc x
    end.
Proof.
  revert acc. induction l as [|[k n] l IH]; simpl; intros acc Hnd Hz; [reflexivity|].
  inversion Hnd as [|? ? Hk Hl]; subst.
  assert (Hmin : (if n <? Counter_getitem other k then n else Counter_getitem other k)
                 = Nat.min n (Counter_getitem other k)).
  { destruct (Nat.ltb_spec n (Counter_getitem other k)); lia. }
  rewrite Hmin. rewrite IH; [|exact Hl|].
  - destruct (eq_dec x k) as [->|Hne].
    + apply get_None_iff in Hk. unfold keys in *. rewrite Hk.
      destruct (Nat.ltb_spec 0 (Nat.min n (Counter_getitem other k))).
      * apply Counter_getitem_set_eq.
      * rewrite Hz by (simpl; tauto). lia.
    + destruct (get l x); [reflexivity|].
      destruct (0 <? _); [|reflexivity].
      apply Counter_getitem_set_neq. congruence.
  - intros k' Hk'. destruct (0 <? _).
    + rewrite Counter_getitem_set_neq by (intros ->; exact (Hk Hk')).
      apply Hz. simpl. tauto.
    + apply Hz. simpl. tauto.
Qed.

(** [&] takes the minimum of the two counts. *)
Lemma Counter_and_min c other x :
  NoDup (keys c) ->
  Counter_getitem (Counter_and c other) x
  = Nat.min (Counter_getitem c x) (Counter_getitem other x).
Proof.
  intros Hc. unfold Counter_and, items. rewrite Counter_and_fold.
  - change (Counter_getitem c x) with (get_default c x 0).
    unfold get_default. destruct (get c x); reflexivity.
  - exact Hc.
  - intros k _. reflexivity.
Qed.

(** [elements] repeats every element as often as its count says. *)
Lemma Counter_elements_count c x :
  NoDup (keys c) ->
  count_occ eq_dec (Counter_elements c) x = Counter_getitem c x.
Proof.
  unfold Counter_elements, items.
  induction c as [|[k n] c IH]; simpl; intros Hnd; [reflexivity|].
  inversion Hnd as [|? ? Hk Hc]; subst.
  rewrite count_occ_app, (IH Hc).
  unfold Counter_getitem, get_default. simpl.
  destruct (eq_dec x k) as [->|Hne].
  - rewrite count_occ_repeat_eq by reflexivity.
    apply get_None_iff in Hk. unfold keys in *. rewrite Hk. lia.
  - rewrite count_occ_repeat_neq by assumption. reflexivity.
Qed.
End CounterFacts.

(** ** [tag.py]: composition *)

Section ComposeFacts.
Import Tag TagSpec.

Lemma fold_right_min_init {X} (g : X -> nat) (l : list X) a b :
  fold_right (fun c m => Nat.min (g c) m) (Nat.min a b) l
  = Nat.min b (fold_right (fun c m => Nat.min (g c) m) a l).
Proof. induction l as [|x l IH]; simpl; [lia|rewrite IH; lia]. Qed.

Lemma fold_left_min_fold_right {X} (g : X -> nat) (l : list X) a :
  fold_left Nat.min (map g l) a = fold_right (fun c m => Nat.min (g c) m) a l.
Proof.
  revert a. induction l as [|x l IH]; simpl; intros a; [reflexivity|].
  rewrite IH. apply fold_right_min_init.
Qed.

(** Reducing with [&] takes, for every element, the minimum of its counts. *)
Lemma reduce_Counter_and {A} `{EqDec A} (cs : list (Counter A)) (c0 : Counter A) x :
  NoDup (keys c0) ->
  NoDup (keys (fold_left Counter_and cs c0)) /\
  Counter_getitem (fold_left Counter_and cs c0) x
  = fold_left Nat.min (map (fun c => Counter_getitem c x) cs) (Counter_getitem c0 x).
Proof.
  revert c0. induction cs as [|c cs IH]; simpl; intros c0 Hc0; [now split|].
  destruct (IH (Counter_and c0 c) (Counter_and_NoDup c0 c)) as [Hnd Hget].
  split; [exact Hnd|]. rewrite Hget, Counter_and_min by exact Hc0. reflexivity.
Qed.

Lemma count_occ_map_pair (name : str) (values : list str) (p : str * str) v :
  count_occ eq_dec (map (fun value => (name, value)) (values ++ [v])) p
  = count_occ eq_dec (map (fun value => (name, value)) values) p
    + (if eq_dec (name, v) p then 1 else 0).
Proof.
  rewrite map_app, count_occ_app. simpl.
  destruct (prod_EqDec (name, v) p); reflexivity.
Qed.

Lemma tag_pairs_append (tags : dict str (list str)) name v p :
  count_occ eq_dec (tag_pairs (set tags name (get_default tags name [] ++ [v]))) p
  = count_occ eq_dec (tag_pairs tags) p + (if eq_dec (name, v) p then 1 else 0).
Proof.
  unfold tag_pairs, items, get_default.
  induction tags as [|[k vs] tags IH]; simpl.
  - destruct (prod_EqDec (name, v) p); reflexivity.
  - destruct (eq_dec name k) as [->|Hne]; simpl.
    + rewrite !count_occ_app, count_occ_map_pair. lia.
    + rewrite !count_occ_app, IH. lia.
Qed.

Lemma group_by_name_fold (pairs : list (str * str)) acc p :
  count_occ eq_dec
    (tag_pairs
       (fold_left
          (fun tags pair =>
             set tags (fst pair) (get_default tags (fst pair) [] ++ [snd pair]))
          pairs acc)) p
  = count_occ eq_dec (tag_pairs acc) p + count_occ eq_dec pairs p.
Proof.
  revert acc. induction pairs as [|[n v] pairs IH]; simpl; intros acc; [lia|].
  rewrite IH, tag_pairs_append. simpl.
  destruct (eq_dec (n, v) p), (prod_EqDec (n, v) p); try lia; contradiction.
Qed.

(** Grouping the pairs by name neither loses nor invents a pair. *)
Lemma group_by_name_count pairs p :
  multiplicity p (group_by_name pairs) = count_occ eq_dec pairs p.
Proof. unfold multiplicity, group_by_name. now rewrite group_by_name_fold. Qed.

Lemma group_by_name_NoDup pairs : NoDup (keys (group_by_name pairs)).
Proof.
  unfold group_by_name.
  apply (fold_left_invariant (fun d => NoDup (keys d))); [constructor|].
  intros d pair Hd. now apply NoDup_keys_set.
Qed.

Lemma min_multiplicity_counters pair component others :
  fold_right
    (fun c m => Nat.min (Counter_getitem (Counter_init (tag_pairs c)) pair) m)
    (Counter_getitem (Counter_init (tag_pairs component)) pair) others
  = min_multiplicity pair component others.
Proof.
  unfold min_multiplicity, multiplicity. rewrite Counter_init_count.
  induction others as [|c cs IH]; simpl; [reflexivity|].
  now rewrite Counter_init_count, IH.
Qed.

Lemma multiplicity_pos p t : 0 < multiplicity p t <-> In p (tag_pairs t).
Proof. unfold multiplicity. symmetry. apply (count_occ_In eq_dec). Qed.

Lemma min_multiplicity_pos p c cs :
  0 < min_multiplicity p c cs <->
  (forall c', In c' (c :: cs) -> In p (tag_pairs c')).
Proof.
  unfold min_multiplicity. induction cs as [|c1 cs IH]; simpl.
  - rewrite multiplicity_pos. split.
    + intros Hc c' [<-|[]]. exact Hc.
    + intros Hall. apply Hall. now left.
  - rewrite Nat.min_glb_lt_iff, IH, multiplicity_pos. split.
    + intros [H1 Hall] c' [<-|[<-|Hin]]; [apply Hall; now left|exact H1|].
      apply Hall. now right.
    + intros Hall. split; [apply Hall; simpl; tauto|].
      intros c' [<-|Hin]; apply Hall; simpl; tauto.
Qed.
End ComposeFacts.

Local Open Scope str_scope.

(** C1: [compose] of an empty collection (a list, a tuple) is the empty
    [Tags], and [compose] of an iterator that yields one component is the
    composite of that component; but [compose] of an iterator that yields
    nothing does not return the empty [Tags]: an iterator is true even when
    it is empty, the guard for no components is passed over, and
    [functools.reduce] raises on the empty list of counters. *)
Theorem compose_zero_components :
  Tag.compose (Collection []) = Some (Tag.Tags_init []) /\
  Tag.compose (Iterator [Tag.Tags_init [("a", ["x"])]])
  = Some (Tag.Tags_init [("a", ["x"])]) /\
  Tag.compose (Iterator []) = None /\
  Tag.compose (Iterator []) <> Some (Tag.Tags_init []).
Proof. repeat split. discriminate. Qed.

(** ** [tag.py]: the track number pattern *)

Lemma length_append (a b : string) :
  String.length (a ++ b) = String.length a + String.length b.
Proof. induction a as [|c a IH]; simpl; [reflexivity|now rewrite IH]. Qed.

Section RegexFacts.
Import Re TrackNumberSpec.
Variable ucd : unicodedata.
Implicit Types (s : str) (g : groups) (k : str -> groups -> option groups).
Local Abbreviation run := (Re.run ucd).
Local Abbreviation fullmatch := (Re.fullmatch ucd).
Local Abbreviation all_digits := (TrackNumberSpec.all_digits ucd).
Local Abbreviation leading_digits := (TrackNumberSpec.leading_digits ucd).
Local Abbreviation after_digits := (TrackNumberSpec.after_digits ucd).
Local Abbreviation shape := (TrackNumberSpec.shape ucd).
Local Abbreviation tracknumber_pattern := (TrackNumberSpec.tracknumber_pattern ucd).

Lemma run_Seq r1 r2 s g k :
  run (Seq r1 r2) s g k = run r1 s g (fun s' g' => run r2 s' g' k).
Proof. reflexivity. Qed.

Lemma run_Group name r s g k :
  run (Group name r) s g k
  = run r s g (fun s' g' => k s' (set g' name (consumed s s'))).
Proof. reflexivity. Qed.

Lemma run_Opt r s g k :
  run (Opt r) s g k
  = match run r s g k with Some m => Some m | None => k s g end.
Proof. reflexivity. Qed.

Lemma run_Chr c c' s g k :
  run (Chr c) (c' :: s) g k = if N.eqb c c' then k s g else None.
Proof. reflexivity. Qed.

Lemma run_plus_digit_stop s g k :
  leading_digits s = "" -> run (Plus Digit) s g k = None.
Proof.
  destruct s as [|c s]; simpl; [reflexivity|]. unfold is_digit.
  destruct (decimal ucd c); [discriminate|reflexivity].
Qed.

(** One more digit: first try to go on, then hand over to [k]. *)
Lemma run_plus_digit_step c s g k :
  decimal ucd c = true ->
  run (Plus Digit) (c :: s) g k
  = match run (Plus Digit) s g k with
    | Some m => Some m
    | None => k s g
    end.
Proof.
  intros Hc. simpl. unfold is_digit. rewrite Hc.
  replace (length s <? S (length s)) with true
    by (symmetry; apply Nat.ltb_lt; lia).
  reflexivity.
Qed.

Lemma leading_after s : s = leading_digits s ++ after_digits s.
Proof.
  induction s as [|c s IH]; simpl; [reflexivity|].
  destruct (decimal ucd c); simpl; [now rewrite <- IH|reflexivity].
Qed.

Lemma leading_nil_after s : leading_digits s = "" -> after_digits s = s.
Proof.
  destruct s as [|c s]; simpl; [reflexivity|].
  destruct (decimal ucd c); [discriminate|reflexivity].
Qed.

Lemma leading_all_digits s : all_digits (leading_digits s) = true.
Proof.
  induction s as [|c s IH]; simpl; [reflexivity|].
  destruct (decimal ucd c) eqn:Hc; simpl; [now rewrite Hc|reflexivity].
Qed.

Lemma after_digits_head c s' s : after_digits s = c :: s' -> decimal ucd c = false.
Proof.
  induction s as [|c0 s IH]; simpl; [discriminate|].
  destruct (decimal ucd c0) eqn:Hc0; [exact IH|]. intros [= -> _]. exact Hc0.
Qed.

(** A run of digits followed by nothing, or by something that does not
    start with a digit, is the leading run. *)
Lemma leading_digits_app d rest :
  all_digits d = true ->
  leading_digits rest = "" ->
  leading_digits (d ++ rest) = d /\ after_digits (d ++ rest) = rest.
Proof.
  intros Hd Hrest. induction d as [|c d IH]; simpl in *.
  - split; [exact Hrest|now apply leading_nil_after].
  - apply andb_prop in Hd as [Hc Hd]. rewrite Hc.
    destruct (IH Hd) as [-> ->]. now split.
Qed.

Lemma all_digits_leading d : all_digits d = true -> leading_digits d = d.
Proof.
  intros Hd. destruct (leading_digits_app d "" Hd eq_refl) as [Hl _].
  now rewrite app_nil_r in Hl.
Qed.

Lemma all_digits_after d : all_digits d = true -> after_digits d = "".
Proof.
  induction d as [|c d IH]; simpl; [reflexivity|].
  intros Hd. apply andb_prop in Hd as [-> Hd]. auto.
Qed.

Lemma after_nil_all_digits s : after_digits s = "" -> all_digits s = true.
Proof.
  induction s as [|c s IH]; simpl; [reflexivity|].
  destruct (decimal ucd c); [exact IH|discriminate].
Qed.

Lemma firstn_prefix (a b : str) : firstn (length a) (a ++ b) = a.
Proof.
  induction a as [|c a IH]; simpl; [reflexivity|now rewrite IH].
Qed.

(** The text consumed up to the end of the leading digits is those digits. *)
Lemma consumed_leading s : consumed s (after_digits s) = leading_digits s.
Proof.
  unfold consumed. rewrite (leading_after s) at 1 3.
  rewrite length_app.
  replace (_ + _ - _) with (length (leading_digits s)) by lia.
  apply firstn_prefix.
Qed.

(** With a continuation that rejects whatever starts with a digit, [\d+]
    can only stop at the end of the leading run of digits. *)
Lemma run_plus_digit_greedy s g k :
  (forall c s' g', decimal ucd c = true -> k (c :: s') g' = None) ->
  run (Plus Digit) s g k
  = match leading_digits s with
    | [] => None
    | _ :: _ => k (after_digits s) g
    end.
Proof.
  intros Hk. induction s as [|c s IH]; [reflexivity|].
  destruct (decimal ucd c) eqn:Hc.
  - rewrite run_plus_digit_step by exact Hc. rewrite IH.
    cbn [TrackNumberSpec.leading_digits TrackNumberSpec.after_digits]. rewrite Hc.
    destruct (leading_digits s) as [|c1 l1] eqn:Hl.
    + now rewrite leading_nil_after.
    + destruct (k (after_digits s) g) eqn:Hafter; [reflexivity|].
      destruct s as [|c2 s2]; [discriminate|].
      simpl in Hl. destruct (decimal ucd c2) eqn:Hc2; [|discriminate].
      now apply Hk.
  - rewrite run_plus_digit_stop;
      cbn [TrackNumberSpec.leading_digits]; now rewrite Hc.
Qed.

(** The slash is below U+0100 and not an ASCII digit: no data base has it
    as a decimal digit. *)
Lemma slash_not_decimal : decimal ucd (ord "/") = false.
Proof. now rewrite (decimal_latin1 ucd (ord "/")). Qed.

Lemma leading_digits_slash total : leading_digits ("/" ++ total) = "".
Proof.
  pose proof slash_not_decimal as Hslash. simpl in Hslash |- *. now rewrite Hslash.
Qed.

Lemma is_digit_slash c : decimal ucd c = true -> N.eqb (ord "/") c = false.
Proof.
  intros Hc. apply N.eqb_neq. intros Heq. rewrite <- Heq in Hc.
  rewrite slash_not_decimal in Hc. discriminate.
Qed.

Lemma fullmatch_tracknumber s :
  match fullmatch Tag._TRACKNUMBER_REGEX s with
  | Some m => shape s = true /\ group m "tracknumber" = Some (leading_digits s)
  | None => shape s = false
  end.
Proof.
  unfold Re.fullmatch, Tag._TRACKNUMBER_REGEX, TrackNumberSpec.shape.
  rewrite run_Seq, run_Group, run_plus_digit_greedy.
  2:{ intros c s' g' Hc.
      rewrite run_Opt, run_Seq, run_Chr, (is_digit_slash c Hc). reflexivity. }
  rewrite consumed_leading.
  destruct (leading_digits s) as [|c0 l0] eqn:Hl; [reflexivity|].
  rewrite <- Hl. clear Hl.
  destruct (after_digits s) as [|c r] eqn:Ha.
  - split; reflexivity.
  - rewrite run_Opt, run_Seq, run_Chr.
    destruct (N.eqb_spec (ord "/") c) as [<-|Hne]; cbn [andb]; [|reflexivity].
    rewrite run_Group, run_plus_digit_greedy.
    2:{ intros c s' g' _. reflexivity. }
    destruct (leading_digits r) as [|c1 l1] eqn:Hlr.
    + destruct r as [|c2 r2]; [reflexivity|].
      simpl in Hlr. destruct (decimal ucd c2) eqn:Hc2; [discriminate|].
      simpl. rewrite Hc2. reflexivity.
    + destruct r as [|c2 r2]; [discriminate|].
      destruct (after_digits (c2 :: r2)) as [|c3 r3] eqn:Har.
      * rewrite (after_nil_all_digits _ Har). split; reflexivity.
      * destruct (all_digits (c2 :: r2)) eqn:Hall.
        -- rewrite (all_digits_after _ Hall) in Har. discriminate.
        -- reflexivity.
Qed.

(** The shape is the pattern: digits, optionally followed by a slash and digits. *)
Lemma shape_pattern v :
  shape v = true <-> exists number, tracknumber_pattern v number.
Proof.
  unfold TrackNumberSpec.shape, TrackNumberSpec.tracknumber_pattern,
    TrackNumberSpec.digits. split.
  - intros Hs. exists (leading_digits v).
    pose proof (leading_after v) as Hv.
    pose proof (leading_all_digits v) as Hd.
    destruct (leading_digits v) as [|c0 l0] eqn:Hl; [discriminate|].
    split; [split; [discriminate|exact Hd]|].
    destruct (after_digits v) as [|c r] eqn:Ha.
    + left. now rewrite app_nil_r in Hv.
    + right. apply andb_prop in Hs as [Hs Hr]. apply andb_prop in Hs as [Hc Hne].
      apply N.eqb_eq in Hc. subst c. exists r. split; [split|].
      * intros ->. discriminate.
      * exact Hr.
      * exact Hv.
  - intros [number [[Hne Hd] [->|[total [[Htne Htd] ->]]]]].
    + rewrite (all_digits_leading _ Hd), (all_digits_after _ Hd).
      destruct number; [congruence|reflexivity].
    + destruct (leading_digits_app number ("/" ++ total) Hd
                  (leading_digits_slash total)) as [-> ->].
      destruct number; [congruence|]. simpl. rewrite Htd.
      destruct total; [congruence|reflexivity].
Qed.

Lemma pattern_number v number :
  tracknumber_pattern v number -> number = leading_digits v.
Proof.
  intros [[Hne Hd] [->|[total [[Htne Htd] ->]]]].
  - now rewrite all_digits_leading.
  - now destruct (leading_digits_app number ("/" ++ total) Hd
                    (leading_digits_slash total)) as [-> _].
Qed.
End RegexFacts.

(** ** [tag.py]: the accessors *)

Section TagsFacts.
Import Tag.

Lemma Tags_get_present self key values default :
  Tags_getitem self key = Some values -> Tags_get self key default = values.
Proof. unfold Tags_get. now intros ->. Qed.

Lemma Tags_get_absent self key default :
  Tags_getitem self key = None -> Tags_get self key default = default.
Proof. unfold Tags_get. now intros ->. Qed.

(** [singular] joins the values of a tag that is there, and returns the
    default for a tag that is not. *)
Lemma singular_present self key values default separator :
  Tags_getitem self key = Some values ->
  singular self key default separator = join separator values.
Proof. unfold singular. intros Hget. now rewrite (Tags_get_present _ _ values). Qed.

Lemma singular_absent self key default separator :
  Tags_getitem self key = None ->
  singular self key default separator = default.
Proof. unfold singular. intros Hget. now rewrite Tags_get_absent. Qed.

Lemma one_or_none_single self key v :
  Tags_getitem self key = Some [v] -> one_or_none self key = Some v.
Proof. unfold one_or_none. intros Hget. now rewrite (Tags_get_present _ _ [v]). Qed.

Lemma one_or_none_absent self key :
  Tags_getitem self key = None -> one_or_none self key = None.
Proof. unfold one_or_none. intros Hget. now rewrite Tags_get_absent. Qed.

Lemma one_or_none_several self key v1 v2 values :
  Tags_getitem self key = Some (v1 :: v2 :: values) -> one_or_none self key = None.
Proof.
  unfold one_or_none. intros Hget.
  now rewrite (Tags_get_present _ _ (v1 :: v2 :: values)).
Qed.

(** The track number of a single value: its leading digits when it has
    the shape of the pattern, the value itself otherwise. *)
Lemma tracknumber_single ucd self v :
  Tags_getitem self (Name TRACKNUMBER) = Some [v] ->
  tracknumber ucd self
  = Some (if TrackNumberSpec.shape ucd v
          then TrackNumberSpec.leading_digits ucd v else v).
Proof.
  intros Hget. unfold tracknumber. rewrite (one_or_none_single _ _ v Hget).
  pose proof (fullmatch_tracknumber ucd v) as Hm.
  destruct (Re.fullmatch ucd _TRACKNUMBER_REGEX v) as [m|].
  - destruct Hm as [-> Hgroup]. exact Hgroup.
  - now rewrite Hm.
Qed.
End TagsFacts.

(** C4: whatever decimal digits the character data base has, when the
    single value of the [TRACKNUMBER] tag is digits, optionally followed by a
    slash and digits, [tracknumber] is the first digits, which are the leading
    run of digits of the value; when the single value is not of that form,
    [tracknumber] is the value unchanged; when the tag is absent,
    [tracknumber] is absent. *)
Theorem tracknumber_parsing (ucd : unicodedata) (self : Tag.Tags) :
  (forall v number,
      Tag.Tags_getitem self (Tag.Name Tag.TRACKNUMBER) = Some [v] ->
      TrackNumberSpec.tracknumber_pattern ucd v number ->
      Tag.tracknumber ucd self = Some number /\
      number = TrackNumberSpec.leading_digits ucd v) /\
  (forall v,
      Tag.Tags_getitem self (Tag.Name Tag.TRACKNUMBER) = Some [v] ->
      (forall number, ~ TrackNumberSpec.tracknumber_pattern ucd v number) ->
      Tag.tracknumber ucd self = Some v) /\
  (Tag.Tags_contains self (Tag.Name Tag.TRACKNUMBER) = false ->
   Tag.tracknumber ucd self = None).
Proof.
  split; [|split].
  - intros v number Hget Hpat.
    rewrite (tracknumber_single _ _ _ Hget).
    assert (Hshape : TrackNumberSpec.shape ucd v = true)
      by (apply shape_pattern; now exists number).
    rewrite Hshape, (pattern_number _ _ _ Hpat). now split.
  - intros v Hget Hnot.
    rewrite (tracknumber_single _ _ _ Hget).
    destruct (TrackNumberSpec.shape ucd v) eqn:Hshape; [|reflexivity].
    apply shape_pattern in Hshape as [number Hpat]. now destruct (Hnot number).
  - unfold Tag.Tags_contains, contains, Tag.tracknumber. intros Habs.
    rewrite one_or_none_absent; [reflexivity|].
    unfold Tag.Tags_getitem.
    destruct (get self (Tag._tag_name_str (Tag.Name Tag.TRACKNUMBER)));
      [discriminate|reflexivity].
Qed.

Lemma tracknumber_parsing_witness :
  Tag.tracknumber TrackNumberSpec.ascii_only
                  (Tag.Tags_init [("tracknumber", ["3/12"])]) = Some "3" /\
  Tag.tracknumber TrackNumberSpec.ascii_only
                  (Tag.Tags_init [("tracknumber", ["7"])]) = Some "7" /\
  Tag.tracknumber TrackNumberSpec.with_arabic_indic
                  (Tag.Tags_init [("tracknumber", [1635%N :: "/12"])])
  = Some [1635%N] /\
  Tag.tracknumber TrackNumberSpec.with_arabic_indic
                  (Tag.Tags_init [("tracknumber", ["A3"])]) = Some "A3" /\
  Tag.tracknumber TrackNumberSpec.with_arabic_indic
                  (Tag.Tags_init [("album", ["x"])]) = None.
Proof.
  split; [|split; [|split; [|split]]].
  - apply (proj1 (tracknumber_parsing _ _) "3/12" "3"); [reflexivity|].
    split; [split; [discriminate|reflexivity]|].
    right. exists "12". split; [split; [discriminate|reflexivity]|reflexivity].
  - apply (proj1 (tracknumber_parsing _ _) "7" "7"); [reflexivity|].
    split; [split; [discriminate|reflexivity]|]. now left.
  - apply (proj1 (tracknumber_parsing _ _) (1635%N :: "/12") [1635%N]);
      [reflexivity|].
    split; [split; [discriminate|reflexivity]|].
    right. exists "12". split; [split; [discriminate|reflexivity]|reflexivity].
  - apply (proj1 (proj2 (tracknumber_parsing _ _)) "A3"); [reflexivity|].
    intros number Hpat.
    assert (Hshape : TrackNumberSpec.shape TrackNumberSpec.with_arabic_indic "A3"
                     = true)
      by (apply shape_pattern; now exists number).
    discriminate Hshape.
  - apply (proj2 (proj2 (tracknumber_parsing _ _))). reflexivity.
Defined.

(** C5: [singular] on a tag whose tuple of values is empty returns the empty
    string, not the default: no value is present for the name, and yet
    ["[unknown]"] is not what comes back. *)
Theorem singular_no_values_not_default :
  Tag.Tags_getitem (Tag.Tags_init [("a", [])]) (Tag.Str "a") = Some [] /\
  Tag.singular (Tag.Tags_init [("a", [])]) (Tag.Str "a") "[unknown]" "; " = "" /\
  Tag.singular (Tag.Tags_init [("a", [])]) (Tag.Str "a") "[unknown]" "; "
  <> "[unknown]".
Proof. split; [reflexivity|split; [reflexivity|discriminate]]. Qed.

(** C6: indexing a [Tags] and testing that a tag is in it give the same
    result for a [TagName] member and for the string that is its value; for
    the tags [{"tracknumber": ["1"]}] both ways of indexing give [("1",)]. *)
Theorem lookup_by_member_or_string (self : Tag.Tags) (tag_name : Tag.TagName) :
  Tag.Tags_getitem self (Tag.Name tag_name)
  = Tag.Tags_getitem self (Tag.Str (Tag.value tag_name)) /\
  Tag.Tags_contains self (Tag.Name tag_name)
  = Tag.Tags_contains self (Tag.Str (Tag.value tag_name)) /\
  Tag.Tags_getitem (Tag.Tags_init [("tracknumber", ["1"])]) (Tag.Name Tag.TRACKNUMBER)
  = Some ["1"] /\
  Tag.Tags_getitem (Tag.Tags_init [("tracknumber", ["1"])]) (Tag.Str "tracknumber")
  = Some ["1"].
Proof. repeat split. Qed.

(** C10: when the [TRACKNUMBER] tag has two or more values, [one_or_none]
    gives nothing and [tracknumber] is absent, whatever the values are. *)
Theorem tracknumber_several_values (ucd : unicodedata) (self : Tag.Tags)
    (v1 v2 : str) (values : list str) :
  Tag.Tags_getitem self (Tag.Name Tag.TRACKNUMBER) = Some (v1 :: v2 :: values) ->
  Tag.one_or_none self (Tag.Name Tag.TRACKNUMBER) = None /\
  Tag.tracknumber ucd self = None.
Proof.
  intros Hget. unfold Tag.tracknumber.
  rewrite (one_or_none_several _ _ _ _ _ Hget). now split.
Qed.

Lemma tracknumber_several_values_witness :
  Tag.one_or_none (Tag.Tags_init [("tracknumber", ["1"; "2/9"])])
                  (Tag.Name Tag.TRACKNUMBER) = None /\
  Tag.tracknumber TrackNumberSpec.ascii_only
                  (Tag.Tags_init [("tracknumber", ["1"; "2/9"])]) = None.
Proof.
  apply (tracknumber_several_values TrackNumberSpec.ascii_only _ "1" "2/9" []).
  reflexivity.
Defined.

(** The compositions, renderings and track numbers that the tests of the
    tag model check. *)
Example compose_minimum_multiplicity :
  Tag.compose (Collection [Tag.Tags_init [("a", ["x"; "x"])];
                           Tag.Tags_init [("a", ["x"])]])
  = Some (Tag.Tags_init [("a", ["x"])]).
Proof. reflexivity. Qed.

Example compose_no_common_pair :
  Tag.compose (Collection [Tag.Tags_init [("a", ["x"])];
                           Tag.Tags_init [("b", ["y"])]])
  = Some (Tag.Tags_init []).
Proof. reflexivity. Qed.

Example compose_album :
  Tag.compose
    (Collection
       [Tag.Tags_init [("album", ["A"]); ("title", ["one"]); ("artist", ["p"; "q"])];
        Tag.Tags_init [("title", ["two"]); ("artist", ["q"]); ("album", ["A"])]])
  = Some (Tag.Tags_init [("album", ["A"]); ("artist", ["q"])]).
Proof. reflexivity. Qed.

Example singular_joins_values :
  Tag.singular' (Tag.Tags_init [("a", ["x"; "y"])]) (Tag.Str "a") = "x; y".
Proof. reflexivity. Qed.

Example singular_of_missing_tag :
  Tag.singular' (Tag.Tags_init []) (Tag.Name Tag.TRACKNUMBER) = "[unknown]".
Proof. reflexivity. Qed.

Example tracknumber_rejects_partial_matches :
  Tag.tracknumber TrackNumberSpec.ascii_only
                  (Tag.Tags_init [("tracknumber", ["3/"])]) = Some "3/" /\
  Tag.tracknumber TrackNumberSpec.ascii_only
                  (Tag.Tags_init [("tracknumber", ["12a"])]) = Some "12a" /\
  Tag.tracknumber TrackNumberSpec.ascii_only
                  (Tag.Tags_init [("tracknumber", ["123/456"])]) = Some "123" /\
  Tag.tracknumber TrackNumberSpec.ascii_only
                  (Tag.Tags_init [("tracknumber", [""])]) = Some "".
Proof. repeat split. Qed.

(** The digits of other scripts count when the character data base has
    them: U+0663 before [/12] is the track number with the Arabic-Indic
    digits, and the whole value without them. *)
Example tracknumber_arabic_indic :
  Tag.tracknumber TrackNumberSpec.with_arabic_indic
                  (Tag.Tags_init [("tracknumber", [1635%N :: "/12"])])
  = Some [1635%N] /\
  Tag.tracknumber TrackNumberSpec.ascii_only
                  (Tag.Tags_init [("tracknumber", [1635%N :: "/12"])])
  = Some (1635%N :: "/12").
Proof. split; reflexivity. Qed.

Local Close Scope str_scope.

(** ** [order.py] *)

Section OrderFacts.
Import Entity Order OrderSpec.

Lemma token_index_fold (units : list PlayableUnit) start (acc : dict LibraryToken nat) tok :
  get (fold_left (fun d kv => set d (fst kv) (snd kv))
                 (map (fun iu => (token (track (snd iu)), fst iu))
                      (enumerate_from start units)) acc) tok
  = match last_index tok units with
    | Some j => Some (start + j)
    | None => get acc tok
    end.
Proof.
  revert start acc. induction units as [|unit units IH]; simpl; intros start acc.
  - reflexivity.
  - rewrite IH. destruct (last_index tok units) as [j|].
    + f_equal. lia.
    + destruct (eq_dec (token (track unit)) tok) as [Heq|Hne].
      * rewrite Heq, get_set_eq. f_equal. lia.
      * now rewrite get_set_neq.
Qed.

(** The index map gives, for a token, the last position that has it. *)
Lemma token_index_last units tok :
  get (token_index units) tok = last_index tok units.
Proof.
  unfold token_index, of_items, enumerate. rewrite token_index_fold.
  now destruct (last_index tok units).
Qed.

Lemma last_index_None tok units :
  last_index tok units = None ->
  forall j unit, nth_error units j = Some unit -> token (track unit) <> tok.
Proof.
  induction units as [|u units IH]; simpl; intros Hl j unit Hj.
  - now destruct j.
  - destruct (last_index tok units); [discriminate|].
    destruct (eq_dec (token (track u)) tok); [discriminate|].
    destruct j as [|j]; simpl in Hj; [now injection Hj as <-|].
    now apply (IH eq_refl j).
Qed.

Lemma last_index_position tok units index :
  last_index tok units = Some index <-> last_position units tok index.
Proof.
  unfold last_position. revert index.
  induction units as [|u units IH]; simpl; intros index.
  - split; [discriminate|]. intros [[unit [Hn _]] _]. now destruct index.
  - destruct (last_index tok units) as [j|] eqn:Hl.
    + destruct (proj1 (IH j) eq_refl) as [[uj [Hj Htok]] Hafter]. split.
      * intros [= <-]. split; [now exists uj|].
        intros [|j'] unit Hlt Hn; [lia|]. simpl in Hn.
        apply (Hafter j' unit); [lia|exact Hn].
      * intros [[unit [Hn Ht]] Hlater]. f_equal.
        destruct (Nat.lt_trichotomy index (S j)) as [Hlt|[Heq|Hgt]].
        -- now destruct (Hlater (S j) uj Hlt Hj).
        -- now symmetry.
        -- destruct index as [|i]; [lia|]. simpl in Hn.
           destruct (Hafter i unit); [lia|exact Hn|exact Ht].
    + pose proof (last_index_None tok units Hl) as Hnone.
      destruct (eq_dec (token (track u)) tok) as [Heq|Hne]; split.
      * intros [= <-]. split; [now exists u|].
        intros [|j'] unit Hlt Hn; [lia|]. simpl in Hn. now apply (Hnone j').
      * intros [[unit [Hn Ht]] _]. destruct index as [|i]; [reflexivity|].
        simpl in Hn. now destruct (Hnone i unit Hn).
      * discriminate.
      * intros [[unit [Hn Ht]] _]. destruct index as [|i]; simpl in Hn.
        -- injection Hn as <-. contradiction.
        -- now destruct (Hnone i unit Hn).
Qed.

Lemma getitem_in_range {A} (l : list A) (i : Z) :
  ((0 <=? i) && (i <? Z.of_nat (length l)))%Z = true ->
  exists a, getitem l i = Some a /\ nth_error l (Z.to_nat i) = Some a.
Proof.
  intros Hin. unfold getitem. rewrite Hin.
  apply andb_prop in Hin as [H0 Hlen].
  apply Z.leb_le in H0. apply Z.ltb_lt in Hlen.
  destruct (nth_error l (Z.to_nat i)) as [a|] eqn:Hn; [now exists a|].
  apply nth_error_None in Hn. lia.
Qed.

(** With the entry resolved and the track found, the step is a bounds
    check and a lookup; nothing is raised and nothing is logged. *)
Lemma unit_in_same_entry_found self current units index offset log :
  playable_units (playlist self) (playlist_entry current) = Return units ->
  last_position units (token (track current)) index ->
  _unit_in_same_entry self (Some current) offset log
  = (Return (unit_at units (Z.of_nat index + offset)), log).
Proof.
  intros Hunits Hlast. apply last_index_position in Hlast.
  unfold _unit_in_same_entry, bind, try_except, lift. rewrite Hunits.
  rewrite token_index_last, Hlast. unfold ret, unit_at.
  destruct ((0 <=? Z.of_nat index + offset)
            && (Z.of_nat index + offset <? Z.of_nat (length units)))%Z eqn:Hin;
    [|reflexivity].
  destruct (getitem_in_range units _ Hin) as [a [-> ->]]. reflexivity.
Qed.

Lemma unit_in_same_entry_entry_not_found self current offset log :
  playable_units (playlist self) (playlist_entry current) = Raise KeyError ->
  _unit_in_same_entry self (Some current) offset log
  = (Raise (StopError EntryNotFound), log).
Proof.
  intros Hunits. unfold _unit_in_same_entry, bind, try_except, lift.
  now rewrite Hunits.
Qed.

(** What the decorator makes of a function's outcome. *)
Lemma handle_stop_error_return {Args T} (function : Args -> ErrorPolicy -> M (option T))
    args error_policy log v log' :
  function args RAISE_STOP_ERROR log = (Return v, log') ->
  handle_stop_error function args error_policy log = (Return v, log').
Proof. intros Hf. unfold handle_stop_error, try_except. now rewrite Hf. Qed.

Lemma handle_stop_error_raise {Args T} (function : Args -> ErrorPolicy -> M (option T))
    args log message log' :
  function args RAISE_STOP_ERROR log = (Raise (StopError message), log') ->
  handle_stop_error function args RAISE_STOP_ERROR log
  = (Raise (StopError message), log') /\
  handle_stop_error function args RETURN_NONE log
  = (Return None, log' ++ [("Stopping due to error.", StopError message)]).
Proof. intros Hf. unfold handle_stop_error, try_except. now rewrite Hf. Qed.

Lemma handle_stop_error_no_stop {Args T} (function : Args -> ErrorPolicy -> M (option T))
    args log message :
  fst (handle_stop_error function args RETURN_NONE log) <> Raise (StopError message).
Proof.
  unfold handle_stop_error, try_except.
  destruct (function args RAISE_STOP_ERROR log) as [[v|e] log']; [discriminate|].
  destruct e; discriminate.
Qed.

Lemma handle_stop_error_same_value {Args T} (function : Args -> ErrorPolicy -> M (option T))
    args log v log' :
  handle_stop_error function args RAISE_STOP_ERROR log = (Return v, log') ->
  handle_stop_error function args RETURN_NONE log = (Return v, log').
Proof.
  unfold handle_stop_error, try_except.
  destruct (function args RAISE_STOP_ERROR log) as [[v0|e] log0]; [easy|].
  destruct e; easy.
Qed.
End OrderFacts.

(** C2: when the current unit's entry resolves to [units] and the current
    track is found at position [index] (the last one with its token), [next]
    and [previous] return, under either error policy, the unit at
    [index + 1] and [index - 1] when that position is within
    [0 .. len(units) - 1], and absent otherwise; so [previous] at the first
    position and [next] at the last position return absent, they do not wrap
    around. *)
Theorem linear_entry_step (self : Order.LinearEntry) (current : Entity.PlayableUnit)
    (units : list Entity.PlayableUnit) (index : nat)
    (error_policy : Order.ErrorPolicy) (log : Order.Log) :
  Order.playable_units (Order.playlist self) (Entity.playlist_entry current)
  = Return units ->
  OrderSpec.last_position units (Entity.token (Entity.track current)) index ->
  Order.next self (Some current) error_policy log
  = (Return (OrderSpec.unit_at units (Z.of_nat index + 1)), log) /\
  Order.previous self (Some current) error_policy log
  = (Return (OrderSpec.unit_at units (Z.of_nat index - 1)), log) /\
  (index + 1 < length units ->
   exists unit, nth_error units (index + 1) = Some unit /\
                Order.next self (Some current) error_policy log
                = (Return (Some unit), log)) /\
  (0 < index ->
   exists unit, nth_error units (index - 1) = Some unit /\
                Order.previous self (Some current) error_policy log
                = (Return (Some unit), log)) /\
  (index = 0 ->
   Order.previous self (Some current) error_policy log = (Return None, log)) /\
  (index + 1 = length units ->
   Order.next self (Some current) error_policy log = (Return None, log)).
Proof.
  intros Hunits Hlast.
  assert (Hnext : Order.next self (Some current) error_policy log
                  = (Return (OrderSpec.unit_at units (Z.of_nat index + 1)), log)).
  { apply handle_stop_error_return. simpl.
    now apply unit_in_same_entry_found. }
  assert (Hprev : Order.previous self (Some current) error_policy log
                  = (Return (OrderSpec.unit_at units (Z.of_nat index - 1)), log)).
  { apply handle_stop_error_return. simpl.
    now apply (unit_in_same_entry_found self current units index (-1)). }
  rewrite Hnext, Hprev. unfold OrderSpec.unit_at.
  split; [reflexivity|split; [reflexivity|]].
  split; [|split; [|split]].
  - intros Hlt.
    replace ((0 <=? _) && _)%Z with true by (symmetry; apply andb_true_intro; lia).
    replace (Z.to_nat (Z.of_nat index + 1)) with (index + 1) by lia.
    destruct (nth_error units (index + 1)) as [unit|] eqn:Hn; [now exists unit|].
    apply nth_error_None in Hn. lia.
  - intros Hpos.
    replace ((0 <=? _) && _)%Z with true.
    + replace (Z.to_nat (Z.of_nat index - 1)) with (index - 1) by lia.
      destruct (nth_error units (index - 1)) as [unit|] eqn:Hn; [now exists unit|].
      apply nth_error_None in Hn.
      destruct Hlast as [[u [Hu _]] _].
      assert (index < length units) by (apply nth_error_Some; congruence). lia.
    + symmetry. apply andb_true_intro.
      destruct Hlast as [[u [Hu _]] _].
      assert (index < length units) by (apply nth_error_Some; congruence). lia.
  - intros ->. reflexivity.
  - intros Hend.
    replace (Z.of_nat index + 1 <? Z.of_nat (length units))%Z with false
      by (symmetry; apply Z.ltb_ge; lia).
    now rewrite andb_false_r.
Qed.

Lemma linear_entry_step_witness :
  Order.next OrderSpec.album_order (Some (OrderSpec.album_unit "t2")) Order.DEFAULT []
  = (Return (Some (OrderSpec.album_unit "t3")), []) /\
  Order.previous OrderSpec.album_order (Some (OrderSpec.album_unit "t2")) Order.DEFAULT []
  = (Return (Some (OrderSpec.album_unit "t1")), []) /\
  Order.previous OrderSpec.album_order (Some (OrderSpec.album_unit "t1")) Order.DEFAULT []
  = (Return None, []) /\
  Order.next OrderSpec.album_order (Some (OrderSpec.album_unit "t3")) Order.DEFAULT []
  = (Return None, []).
Proof.
  assert (Hlast : forall i tok,
    OrderSpec.last_index tok
      [OrderSpec.album_unit "t1"; OrderSpec.album_unit "t2"; OrderSpec.album_unit "t3"]
    = Some i ->
    OrderSpec.last_position
      [OrderSpec.album_unit "t1"; OrderSpec.album_unit "t2"; OrderSpec.album_unit "t3"]
      tok i) by (intros i tok; apply last_index_position).
  split; [|split; [|split]].
  - apply (linear_entry_step OrderSpec.album_order (OrderSpec.album_unit "t2")
             _ 1 Order.DEFAULT [] eq_refl (Hlast 1 "t2" eq_refl)).
  - apply (linear_entry_step OrderSpec.album_order (OrderSpec.album_unit "t2")
             _ 1 Order.DEFAULT [] eq_refl (Hlast 1 "t2" eq_refl)).
  - apply (linear_entry_step OrderSpec.album_order (OrderSpec.album_unit "t1")
             _ 0 Order.DEFAULT [] eq_refl (Hlast 0 "t1" eq_refl)). reflexivity.
  - apply (linear_entry_step OrderSpec.album_order (OrderSpec.album_unit "t3")
             _ 2 Order.DEFAULT [] eq_refl (Hlast 2 "t3" eq_refl)). reflexivity.
Defined.

(** C3: when the playlist entry of the current unit is not found in the
    playlist, [next] and [previous] raise [StopError] under
    [RAISE_STOP_ERROR], and under [RETURN_NONE], which is the default, return
    absent after logging the error; under the default policy no call ever
    lets a [StopError] out. *)
Theorem linear_entry_entry_not_found (self : Order.LinearEntry)
    (current : Entity.PlayableUnit) (log : Order.Log) :
  Order.playable_units (Order.playlist self) (Entity.playlist_entry current)
  = Raise Order.KeyError ->
  Order.DEFAULT = Order.RETURN_NONE /\
  Order.next self (Some current) Order.RAISE_STOP_ERROR log
  = (Raise (Order.StopError Order.EntryNotFound), log) /\
  Order.previous self (Some current) Order.RAISE_STOP_ERROR log
  = (Raise (Order.StopError Order.EntryNotFound), log) /\
  Order.next self (Some current) Order.RETURN_NONE log
  = (Return None, OrderSpec.logged_stop log Order.EntryNotFound) /\
  Order.previous self (Some current) Order.RETURN_NONE log
  = (Return None, OrderSpec.logged_stop log Order.EntryNotFound) /\
  Order.next self (Some current) Order.DEFAULT log
  = (Return None, OrderSpec.logged_stop log Order.EntryNotFound) /\
  Order.previous self (Some current) Order.DEFAULT log
  = (Return None, OrderSpec.logged_stop log Order.EntryNotFound) /\
  (forall any_current any_log message,
      fst (Order.next self any_current Order.DEFAULT any_log)
      <> Raise (Order.StopError message) /\
      fst (Order.previous self any_current Order.DEFAULT any_log)
      <> Raise (Order.StopError message)).
Proof.
  intros Hunits.
  destruct (handle_stop_error_raise Order.next_function (self, Some current) log
              Order.EntryNotFound log
              (unit_in_same_entry_entry_not_found self current 1 log Hunits))
    as [Hn1 Hn2].
  destruct (handle_stop_error_raise Order.previous_function (self, Some current) log
              Order.EntryNotFound log
              (unit_in_same_entry_entry_not_found self current (-1) log Hunits))
    as [Hp1 Hp2].
  repeat (split; [first [reflexivity|assumption]|]).
  intros any_current any_log message.
  split; apply handle_stop_error_no_stop.
Qed.

Lemma linear_entry_entry_not_found_witness :
  Order.next OrderSpec.album_order (Some OrderSpec.gone_unit) Order.RAISE_STOP_ERROR []
  = (Raise (Order.StopError Order.EntryNotFound), []) /\
  Order.next OrderSpec.album_order (Some OrderSpec.gone_unit) Order.DEFAULT []
  = (Return None,
     [("Stopping due to error.", Order.StopError Order.EntryNotFound)]).
Proof.
  split;
    apply (linear_entry_entry_not_found OrderSpec.album_order OrderSpec.gone_unit []
             eq_refl).
Defined.

(** C8: whenever [next] (or [previous]) called with [RAISE_STOP_ERROR]
    returns a value instead of raising, the call with [RETURN_NONE] on the
    same arguments returns the same value; the decorated function is always
    run with [RAISE_STOP_ERROR], and ignores that argument anyway. *)
Theorem result_independent_of_error_policy (self : Order.LinearEntry)
    (current : option Entity.PlayableUnit) (log : Order.Log) :
  (forall v log',
      Order.next self current Order.RAISE_STOP_ERROR log = (Return v, log') ->
      Order.next self current Order.RETURN_NONE log = (Return v, log')) /\
  (forall v log',
      Order.previous self current Order.RAISE_STOP_ERROR log = (Return v, log') ->
      Order.previous self current Order.RETURN_NONE log = (Return v, log')) /\
  (forall p1 p2,
      Order.next_function (self, current) p1 = Order.next_function (self, current) p2 /\
      Order.previous_function (self, current) p1
      = Order.previous_function (self, current) p2).
Proof.
  split; [|split].
  - intros v log'. apply handle_stop_error_same_value.
  - intros v log'. apply handle_stop_error_same_value.
  - intros p1 p2. split; reflexivity.
Qed.

Lemma result_independent_of_error_policy_witness :
  Order.next OrderSpec.album_order (Some (OrderSpec.album_unit "t1"))
             Order.RETURN_NONE []
  = (Return (Some (OrderSpec.album_unit "t2")), []).
Proof.
  apply (proj1 (result_independent_of_error_policy OrderSpec.album_order
                  (Some (OrderSpec.album_unit "t1")) [])).
  reflexivity.
Defined.

(** C9: when [units] has the current track's token at two different
    positions, the index looked up in the token-to-index map is the last
    position that has the token, which comes after the first one, and [next]
    and [previous] step from that last position. *)
Theorem linear_entry_steps_from_last_occurrence (self : Order.LinearEntry)
    (current : Entity.PlayableUnit) (units : list Entity.PlayableUnit)
    (i j : nat) (ui uj : Entity.PlayableUnit)
    (error_policy : Order.ErrorPolicy) (log : Order.Log) :
  Order.playable_units (Order.playlist self) (Entity.playlist_entry current)
  = Return units ->
  i < j ->
  nth_error units i = Some ui ->
  Entity.token (Entity.track ui) = Entity.token (Entity.track current) ->
  nth_error units j = Some uj ->
  Entity.token (Entity.track uj) = Entity.token (Entity.track current) ->
  exists last,
    OrderSpec.last_position units (Entity.token (Entity.track current)) last /\
    i < last /\ j <= last /\
    get (Order.token_index units) (Entity.token (Entity.track current)) = Some last /\
    Order.next self (Some current) error_policy log
    = (Return (OrderSpec.unit_at units (Z.of_nat last + 1)), log) /\
    Order.previous self (Some current) error_policy log
    = (Return (OrderSpec.unit_at units (Z.of_nat last - 1)), log).
Proof.
  intros Hunits Hij Hi Hti Hj Htj.
  destruct (OrderSpec.last_index (Entity.token (Entity.track current)) units)
    as [last|] eqn:Hl.
  - pose proof (proj1 (last_index_position _ _ _) Hl) as Hlast.
    assert (Hle : j <= last).
    { destruct (Nat.le_gt_cases j last) as [Hle|Hgt]; [exact Hle|].
      destruct Hlast as [_ Hafter]. now destruct (Hafter j uj Hgt Hj). }
    exists last. split; [exact Hlast|]. split; [lia|]. split; [exact Hle|].
    split; [now rewrite token_index_last|].
    split; apply handle_stop_error_return; simpl.
    + now apply unit_in_same_entry_found.
    + now apply (unit_in_same_entry_found self current units last (-1)).
  - now destruct (last_index_None _ _ Hl j uj Hj).
Qed.

Lemma linear_entry_steps_from_last_occurrence_witness :
  exists last,
    OrderSpec.last_position
      [OrderSpec.album_unit "t1"; OrderSpec.album_unit "t2";
       OrderSpec.album_unit "t1"; OrderSpec.album_unit "t3"] "t1" last /\
    0 < last /\ 2 <= last /\
    get (Order.token_index
           [OrderSpec.album_unit "t1"; OrderSpec.album_unit "t2";
            OrderSpec.album_unit "t1"; OrderSpec.album_unit "t3"]) "t1" = Some last /\
    Order.next OrderSpec.repeat_order (Some (OrderSpec.album_unit "t1")) Order.DEFAULT []
    = (Return (OrderSpec.unit_at
                 [OrderSpec.album_unit "t1"; OrderSpec.album_unit "t2";
                  OrderSpec.album_unit "t1"; OrderSpec.album_unit "t3"]
                 (Z.of_nat last + 1)), []) /\
    Order.previous OrderSpec.repeat_order (Some (OrderSpec.album_unit "t1")) Order.DEFAULT []
    = (Return (OrderSpec.unit_at
                 [OrderSpec.album_unit "t1"; OrderSpec.album_unit "t2";
                  OrderSpec.album_unit "t1"; OrderSpec.album_unit "t3"]
                 (Z.of_nat last - 1)), []).
Proof.
  apply (linear_entry_steps_from_last_occurrence OrderSpec.repeat_order
           (OrderSpec.album_unit "t1") _ 0 2
           (OrderSpec.album_unit "t1") (OrderSpec.album_unit "t1")
           Order.DEFAULT []); try reflexivity.
  lia.
Defined.

(** With the same track twice in an entry, [next] from it goes on from its
    second place, and [previous] goes back to what is before the second
    place. *)
Example repeat_order_next :
  Order.next OrderSpec.repeat_order (Some (OrderSpec.album_unit "t1")) Order.DEFAULT []
  = (Return (Some (OrderSpec.album_unit "t3")), []) /\
  Order.previous OrderSpec.repeat_order (Some (OrderSpec.album_unit "t1")) Order.DEFAULT []
  = (Return (Some (OrderSpec.album_unit "t2")), []).
Proof. split; reflexivity. Qed.

(** ** [screenshot_testlib.py] *)

Section ScreenshotFacts.
Import Pathlib ScreenshotTestlib ScreenshotSpec.

Lemma split_no_slash s : no_slash s = true -> split "/" s = [s].
Proof.
  induction s as [|c s IH]; simpl; [reflexivity|].
  intros Hs. apply andb_prop in Hs as [Hc Hs].
  apply negb_true_iff in Hc. rewrite Hc, (IH Hs). reflexivity.
Qed.

Lemma leading_slashes_no_slash s : no_slash s = true -> leading_slashes s = 0.
Proof.
  destruct s as [|c s]; simpl; [reflexivity|].
  intros Hs. apply andb_prop in Hs as [Hc _].
  apply negb_true_iff in Hc. now rewrite Hc.
Qed.

Lemma no_slash_append a b : no_slash (a ++ b) = no_slash a && no_slash b.
Proof.
  induction a as [|c a IH]; simpl; [reflexivity|].
  now rewrite IH, andb_assoc.
Qed.

Lemma no_slash_file_name module_name screenshot_name :
  no_slash module_name = true -> no_slash screenshot_name = true ->
  no_slash (file_name module_name screenshot_name) = true.
Proof.
  intros Hm Hn. unfold file_name.
  rewrite !no_slash_append, Hm, Hn. reflexivity.
Qed.

Lemma file_name_length module_name screenshot_name :
  5 <= String.length (file_name module_name screenshot_name).
Proof. unfold file_name. rewrite !length_append. simpl. lia. Qed.

(** A file name without a slash is one relative path component. *)
Lemma Path_init_file_name module_name screenshot_name :
  no_slash module_name = true -> no_slash screenshot_name = true ->
  Path_init (file_name module_name screenshot_name)
  = {| root := ""; names := [file_name module_name screenshot_name] |}.
Proof.
  intros Hm Hn. pose proof (no_slash_file_name _ _ Hm Hn) as Hf.
  pose proof (file_name_length module_name screenshot_name) as Hlen.
  unfold Path_init. rewrite (leading_slashes_no_slash _ Hf), (split_no_slash _ Hf).
  simpl. destruct (file_name module_name screenshot_name) as [|c [|c' f]];
    simpl in Hlen; try lia.
  destruct (String.eqb (String c (String c' f)) ".") eqn:Heq; [|reflexivity].
  apply String.eqb_eq in Heq. discriminate.
Qed.

Lemma joinpath_screenshots artifact_dir :
  joinpath (Path_init artifact_dir) "screenshots" = screenshots_path artifact_dir.
Proof. reflexivity. Qed.

Lemma joinpath_file_name artifact_dir module_name screenshot_name :
  no_slash module_name = true -> no_slash screenshot_name = true ->
  joinpath (screenshots_path artifact_dir) (file_name module_name screenshot_name)
  = screenshot_path artifact_dir module_name screenshot_name.
Proof.
  intros Hm Hn. unfold joinpath. rewrite (Path_init_file_name _ _ Hm Hn).
  unfold screenshot_path, screenshots_path.
  destruct (Path_init artifact_dir) as [r n]. cbn [root names String.eqb].
  now rewrite <- app_assoc.
Qed.

Lemma parent_screenshots artifact_dir :
  parent (screenshots_path artifact_dir) = Path_init artifact_dir.
Proof.
  unfold parent, screenshots_path.
  destruct (Path_init artifact_dir) as [r n]. cbn [root names].
  now rewrite removelast_last.
Qed.

Lemma parent_screenshot artifact_dir module_name screenshot_name :
  parent (screenshot_path artifact_dir module_name screenshot_name)
  = screenshots_path artifact_dir.
Proof.
  unfold parent, screenshot_path, screenshots_path.
  destruct (Path_init artifact_dir) as [r n]. cbn [root names].
  change ["screenshots"; file_name module_name screenshot_name]
    with (["screenshots"] ++ [file_name module_name screenshot_name]).
  now rewrite app_assoc, removelast_last.
Qed.

Lemma screenshot_path_neq artifact_dir module_name screenshot_name :
  screenshots_path artifact_dir
  <> screenshot_path artifact_dir module_name screenshot_name.
Proof.
  unfold screenshot_path, screenshots_path.
  destruct (Path_init artifact_dir) as [r n]. cbn [root names]. intros [= Heq].
  apply (f_equal (@length string)) in Heq. rewrite !length_app in Heq.
  simpl in Heq. lia.
Qed.

(** [mkdir(exist_ok=True)] under an existing directory. *)
Lemma Path_mkdir_ok path world :
  get (fs world) (parent path) = Some Dir ->
  get (fs world) path = None \/ get (fs world) path = Some Dir ->
  exists fs',
    Path_mkdir path true world = (Return tt, set_fs world fs') /\
    get fs' path = Some Dir /\
    (forall p, p <> path -> get fs' p = get (fs world) p).
Proof.
  intros Hparent [Habsent|Hdir];
    unfold Path_mkdir, try_except, os_mkdir; rewrite Hparent.
  - rewrite Habsent. exists (set (fs world) path Dir).
    split; [reflexivity|]. split; [apply get_set_eq|].
    intros p Hp. apply get_set_neq. congruence.
  - rewrite Hdir. exists (fs world). unfold bind, is_dir. rewrite Hdir. simpl.
    split; [now destruct world|]. now split.
Qed.
End ScreenshotFacts.

Section ScreenshotClaims.
Import Pathlib ScreenshotTestlib ScreenshotSpec.

(** C7, as it is stated, at a world in which [TEST_ARTIFACT_DIR] is set to a
  directory that does not exist: the call raises [FileNotFoundError] from
  [mkdir], neither the [screenshots] directory nor the PNG is there
  afterwards, so it is not the case that the call completes with the PNG
  written. *)
Lemma register_widget_missing_directory :
get (environ world_without_directory) "TEST_ARTIFACT_DIR"
= Some "/nonexistent" /\
fst (register_widget "pepper.ui" "blank" 0
       world_without_directory)
= Raise FileNotFoundError /\
fs (snd (register_widget "pepper.ui" "blank" 0
           world_without_directory))
= fs world_without_directory /\
~ (exists world',
      register_widget "pepper.ui" "blank" 0
        world_without_directory = (Return tt, world') /\
      get (fs world')
          (screenshot_path "/nonexistent" "pepper.ui" "blank")
      = Some (File (screenshot_of 0))).
Proof.
split; [reflexivity|split; [reflexivity|split; [reflexivity|]]].
intros [world' [Hrun _]]. vm_compute in Hrun. discriminate Hrun.
Qed.

(** C7, amended: when [TEST_ARTIFACT_DIR] is unset the call completes
  without error and leaves the file system as it was; when it is set to an
  existing directory, in which [screenshots] is absent or a directory and
  the file to write is not a directory, and the two names have no slash, the
  call completes, [screenshots] is a directory afterwards, the PNG of the
  widget is at [<TEST_ARTIFACT_DIR>/screenshots/<module_name>.<screenshot_name>.png],
  and nothing else in the file system has changed. *)
Theorem register_widget_effect (module_name screenshot_name : string)
  (widget : Widget) (world : World) :
(get (environ world) "TEST_ARTIFACT_DIR" = None ->
 exists world',
   register_widget module_name screenshot_name widget world
   = (Return tt, world') /\
   fs world' = fs world) /\
(forall artifact_dir,
    get (environ world) "TEST_ARTIFACT_DIR" = Some artifact_dir ->
    get (fs world) (Path_init artifact_dir) = Some Dir ->
    (get (fs world) (screenshots_path artifact_dir) = None \/
     get (fs world) (screenshots_path artifact_dir)
     = Some Dir) ->
    get (fs world)
        (screenshot_path artifact_dir module_name screenshot_name)
    <> Some Dir ->
    no_slash module_name = true ->
    no_slash screenshot_name = true ->
    exists world',
      register_widget module_name screenshot_name widget world
      = (Return tt, world') /\
      get (fs world') (screenshots_path artifact_dir)
      = Some Dir /\
      get (fs world')
          (screenshot_path artifact_dir module_name screenshot_name)
      = Some (File (screenshot_of widget)) /\
      (forall path,
          path <> screenshots_path artifact_dir ->
          path <> screenshot_path artifact_dir module_name
                    screenshot_name ->
          get (fs world') path = get (fs world) path)).
Proof.
split.
- intros Hunset.
  unfold register_widget, bind, Gtk_main_once,
    os_getenv.
  cbn [environ]. rewrite Hunset. eexists. split; reflexivity.
- intros artifact_dir Hset Hdir Hscreenshots Htarget Hm Hn.
  set (world1 := {| environ := environ world; fs := fs world;
                    main_loop_runs := S (main_loop_runs world) |}).
  destruct (Path_mkdir_ok (screenshots_path artifact_dir) world1)
    as [fs1 [Hmkdir [Hdir1 Hframe1]]].
  { now rewrite parent_screenshots. }
  { exact Hscreenshots. }
  pose proof (screenshot_path_neq artifact_dir module_name screenshot_name) as Hneq.
  exists (set_fs world1
            (set fs1 (screenshot_path artifact_dir module_name
                        screenshot_name)
                 (File (screenshot_of widget)))).
  split; [|split; [|split]].
  + unfold register_widget, bind, Gtk_main_once,
      os_getenv.
    cbn [environ]. rewrite Hset. fold world1.
    rewrite joinpath_screenshots, Hmkdir.
    change (module_name ++ "." ++ screenshot_name ++ ".png")%string
      with (file_name module_name screenshot_name).
    rewrite (joinpath_file_name _ _ _ Hm Hn).
    unfold write_to_png. cbn [fs set_fs].
    rewrite parent_screenshot, Hdir1.
    rewrite (Hframe1 _ (not_eq_sym Hneq)). cbn [fs world1].
    destruct (get (fs world) (screenshot_path artifact_dir
                                module_name screenshot_name))
      as [[|content]|]; [contradiction|reflexivity|reflexivity].
  + cbn [fs set_fs]. rewrite get_set_neq by auto. exact Hdir1.
  + cbn [fs set_fs]. apply get_set_eq.
  + intros path Hp1 Hp2. cbn [fs set_fs].
    rewrite get_set_neq by auto. now rewrite Hframe1.
Qed.

Lemma register_widget_effect_witness :
(exists world',
    register_widget "pepper.ui" "blank" 0
      world_unset = (Return tt, world') /\
    fs world' = fs world_unset) /\
(exists world',
    register_widget "pepper.ui" "blank" 0
      world_with_directory = (Return tt, world') /\
    get (fs world') (screenshots_path "/tmp/artifacts")
    = Some Dir /\
    get (fs world')
        (screenshot_path "/tmp/artifacts" "pepper.ui" "blank")
    = Some (File (screenshot_of 0)) /\
    (forall path,
        path <> screenshots_path "/tmp/artifacts" ->
        path <> screenshot_path "/tmp/artifacts" "pepper.ui" "blank" ->
        get (fs world') path = get (fs world_with_directory) path)).
Proof.
split.
- apply (proj1 (register_widget_effect "pepper.ui" "blank" 0
                  world_unset)).
  reflexivity.
- apply (proj2 (register_widget_effect "pepper.ui" "blank" 0
                  world_with_directory) "/tmp/artifacts").
  + reflexivity.
  + reflexivity.
  + left. reflexivity.
  + discriminate.
  + reflexivity.
  + reflexivity.
Defined.

End ScreenshotClaims.

(* ===================================================================== *)
(** * Part III: further properties                                        *)
(* ===================================================================== *)

From Stdlib Require Import Permutation.

Local Open Scope str_scope.

(** ** [tag.py]: more on composition *)

Section ComposeMore.
Import Tag TagSpec.

(** What [compose] returns for one or more components. *)
Lemma compose_cons_eq o c cs :
  compose (iterable o (c :: cs))
  = Some (group_by_name
            (Counter_elements
               (fold_left Counter_and
                  (map (fun c' => Counter_init (tag_pairs c')) cs)
                  (Counter_init (tag_pairs c))))).
Proof.
  unfold compose, truth, reduce. cbn [one_shot elements map]. rewrite orb_true_r.
  cbn [negb]. unfold Tags_init.
  now rewrite of_items_NoDup by apply group_by_name_NoDup.
Qed.

Lemma compose_cons_multiplicity o c cs t p :
  compose (iterable o (c :: cs)) = Some t ->
  multiplicity p t = min_multiplicity p c cs.
Proof.
  rewrite compose_cons_eq. intros [= <-].
  destruct (reduce_Counter_and
              (map (fun c' => Counter_init (tag_pairs c')) cs)
              (Counter_init (tag_pairs c)) p (Counter_init_NoDup _)) as [Hnd Hget].
  rewrite group_by_name_count, Counter_elements_count by exact Hnd.
  rewrite Hget, map_map.
  rewrite (fold_left_min_fold_right
             (fun c' => Counter_getitem (Counter_init (tag_pairs c')) p)).
  apply min_multiplicity_counters.
Qed.

(** The minimum over the components is their greatest lower bound. *)
Lemma min_multiplicity_glb n p c cs :
  n <= min_multiplicity p c cs <->
  (forall c', In c' (c :: cs) -> n <= multiplicity p c').
Proof.
  unfold min_multiplicity. induction cs as [|c1 cs IH]; simpl.
  - split; [intros Hn c' [<-|[]]; exact Hn|intros Hall; apply Hall; now left].
  - rewrite Nat.min_glb_iff, IH. split.
    + intros [H1 Hall] c' [<-|[<-|Hin]]; [apply Hall; now left|exact H1|].
      apply Hall. now right.
    + intros Hall. split; [apply Hall; simpl; tauto|].
      intros c' [<-|Hin]; apply Hall; simpl; tauto.
Qed.

Lemma le_iff_eq a b : (forall n, n <= a <-> n <= b) -> a = b.
Proof.
  intros Hab. apply Nat.le_antisymm; [apply Hab|apply Hab]; apply Nat.le_refl.
Qed.

Lemma Forall_set {K V} `{EqDec K} (P : K * V -> Prop) (d : dict K V) k v :
  Forall P d -> P (k, v) -> Forall P (set d k v).
Proof.
  intros Hd Hkv. induction d as [|[k' v'] d IH]; simpl.
  - now constructor.
  - inversion Hd; subst. destruct (eq_dec k k'); constructor; auto.
Qed.

Lemma group_by_name_values_nonempty pairs :
  Forall (fun item => snd item <> []) (group_by_name pairs).
Proof.
  unfold group_by_name.
  apply (fold_left_invariant (Forall (fun item => snd item <> []))); [constructor|].
  intros d pair Hd. apply Forall_set; [exact Hd|].
  simpl. now destruct (get_default d (fst pair) []).
Qed.

Lemma get_Some_In {K V} `{EqDec K} (d : dict K V) k v :
  get d k = Some v -> In (k, v) d.
Proof.
  induction d as [|[k' v'] d IH]; simpl; [discriminate|].
  destruct (eq_dec k k') as [->|Hne]; [intros [= ->]; now left|].
  intros Hget. right. now apply IH.
Qed.

Lemma contains_true_iff {K V} `{EqDec K} (d : dict K V) k :
  contains d k = true <-> In k (keys d).
Proof.
  unfold contains. pose proof (get_None_iff d k) as Hnone.
  destruct (get d k).
  - split; [intros _|reflexivity].
    destruct (in_dec eq_dec k (keys d)) as [Hin|Hn]; [exact Hin|].
    apply Hnone in Hn. discriminate.
  - split; [discriminate|]. intros Hin. now apply Hnone in Hin.
Qed.

Lemma in_tag_pairs name v (t : Tags) :
  In (name, v) (tag_pairs t) <->
  exists values, In (name, values) t /\ In v values.
Proof.
  unfold tag_pairs, items. rewrite in_flat_map. split.
  - intros [[n values] [Hitem Hpair]]. apply in_map_iff in Hpair as [v' [[= <- <-] Hv]].
    now exists values.
  - intros [values [Hitem Hv]]. exists (name, values). split; [exact Hitem|].
    apply in_map_iff. now exists v.
Qed.

Lemma compose_shape components composite :
  compose components = Some composite ->
  composite = [] \/ exists pairs, composite = group_by_name pairs.
Proof.
  intros Hcompose. destruct components as [o [|c cs]].
  - destruct o; [discriminate|]. left. now injection Hcompose as <-.
  - right. rewrite compose_cons_eq in Hcompose. injection Hcompose as <-.
    now eexists.
Qed.

Lemma compose_items_nonempty components composite name values :
  compose components = Some composite ->
  In (name, values) (items composite) -> values <> [].
Proof.
  intros Hcompose Hitem.
  destruct (compose_shape _ _ Hcompose) as [->|[pairs ->]]; [destruct Hitem|].
  pose proof (group_by_name_values_nonempty pairs) as Hall.
  rewrite Forall_forall in Hall. now apply (Hall _ Hitem).
Qed.
End ComposeMore.

(** X1: the order of the components does not matter: two lists of components
    that are permutations of one another, both given as collections or both
    as iterators, compose to tags with the same [(name, value)] pairs, each
    the same number of times. *)
Theorem compose_permutation (one_shot : bool)
    (components components' : list Tag.Tags) (composite : Tag.Tags) :
  Permutation components components' ->
  Tag.compose (iterable one_shot components) = Some composite ->
  exists composite',
    Tag.compose (iterable one_shot components') = Some composite' /\
    forall pair,
      TagSpec.multiplicity pair composite = TagSpec.multiplicity pair composite'.
Proof.
  intros Hperm Hcompose.
  destruct components as [|c cs], components' as [|c' cs'].
  - now exists composite.
  - now apply Permutation_nil in Hperm.
  - apply Permutation_sym in Hperm. now apply Permutation_nil in Hperm.
  - eexists. split; [apply compose_cons_eq|]. intros pair.
    rewrite (compose_cons_multiplicity _ c cs composite pair Hcompose).
    rewrite (compose_cons_multiplicity _ c' cs' _ pair
               (compose_cons_eq one_shot c' cs')).
    apply le_iff_eq. intros n. rewrite !min_multiplicity_glb.
    split; intros Hall x Hx; apply Hall.
    + now apply (Permutation_in x (Permutation_sym Hperm)).
    + now apply (Permutation_in x Hperm).
Qed.

Lemma compose_permutation_witness :
  exists composite',
    Tag.compose
      (Collection [Tag.Tags_init [("artist", ["q"]); ("album", ["A"])];
                   Tag.Tags_init [("album", ["A"]); ("artist", ["p"; "q"])]])
    = Some composite' /\
    forall pair,
      TagSpec.multiplicity pair (Tag.Tags_init [("album", ["A"]); ("artist", ["q"])])
      = TagSpec.multiplicity pair composite'.
Proof.
  apply (compose_permutation false
           [Tag.Tags_init [("album", ["A"]); ("artist", ["p"; "q"])];
            Tag.Tags_init [("artist", ["q"]); ("album", ["A"])]]).
  - apply perm_swap.
  - reflexivity.
Defined.

(** X2: the tags that [compose] returns have every name once and no name
    with an empty tuple of values; a tag that a component carries without any
    value is never in the composite. *)
Theorem compose_no_empty_tag (components : Iterable Tag.Tags)
    (composite : Tag.Tags) :
  Tag.compose components = Some composite ->
  NoDup (keys composite) /\
  forall key, Tag.Tags_getitem composite key <> Some [].
Proof.
  intros Hcompose. split.
  - destruct (compose_shape _ _ Hcompose) as [->|[pairs ->]];
      [constructor|apply group_by_name_NoDup].
  - intros key Hget. unfold Tag.Tags_getitem in Hget.
    apply get_Some_In in Hget.
    now apply (compose_items_nonempty _ _ _ _ Hcompose Hget).
Qed.

Lemma compose_no_empty_tag_witness :
  NoDup (keys (Tag.Tags_init [("album", ["A"])])) /\
  forall key, Tag.Tags_getitem (Tag.Tags_init [("album", ["A"])]) key <> Some [].
Proof.
  apply (compose_no_empty_tag
           (Collection [Tag.Tags_init [("album", ["A"]); ("comment", [])];
                        Tag.Tags_init [("comment", []); ("album", ["A"])]])).
  reflexivity.
Defined.

(** X3: a name that is in the composite is in every component. *)
Theorem compose_names_common (components : Iterable Tag.Tags)
    (composite : Tag.Tags) (name : str) (component : Tag.Tags) :
  Tag.compose components = Some composite ->
  Tag.Tags_contains composite (Tag.Str name) = true ->
  In component (elements components) ->
  Tag.Tags_contains component (Tag.Str name) = true.
Proof.
  intros Hcompose Hname Hin.
  destruct components as [o [|c cs]]; [destruct Hin|]. cbn [elements] in Hin.
  unfold Tag.Tags_contains in *. simpl Tag._tag_name_str in *.
  apply contains_true_iff in Hname. apply contains_true_iff.
  apply in_map_iff in Hname as [[n values] [Hn Hitem]]. simpl in Hn. subst n.
  pose proof (compose_items_nonempty _ _ _ _ Hcompose Hitem) as Hne.
  destruct values as [|v values]; [contradiction|].
  assert (Hpair : In (name, v) (Tag.tag_pairs composite))
    by (apply in_tag_pairs; exists (v :: values); split; [exact Hitem|now left]).
  apply multiplicity_pos in Hpair.
  rewrite (compose_cons_multiplicity o c cs composite _ Hcompose) in Hpair.
  pose proof (proj1 (min_multiplicity_pos _ _ _) Hpair component Hin) as Hc.
  apply in_tag_pairs in Hc as [values' [Hitem' _]].
  apply in_map_iff. now exists (name, values').
Qed.

Lemma compose_names_common_witness :
  Tag.Tags_contains (Tag.Tags_init [("artist", ["p"; "q"]); ("album", ["A"])])
                    (Tag.Str "album") = true.
Proof.
  apply (compose_names_common
           (Collection [Tag.Tags_init [("album", ["A"]); ("title", ["one"])];
                        Tag.Tags_init [("artist", ["p"; "q"]); ("album", ["A"])]])
           (Tag.Tags_init [("album", ["A"])]) "album").
  - reflexivity.
  - reflexivity.
  - right. left. reflexivity.
Defined.

(** X4: the composite has no pair more often than any of the components. *)
Theorem compose_lower_bound (components : Iterable Tag.Tags)
    (composite : Tag.Tags) (component : Tag.Tags) (pair : str * str) :
  Tag.compose components = Some composite ->
  In component (elements components) ->
  TagSpec.multiplicity pair composite <= TagSpec.multiplicity pair component.
Proof.
  intros Hcompose Hin. destruct components as [o [|c cs]]; [destruct Hin|].
  cbn [elements] in Hin.
  rewrite (compose_cons_multiplicity o c cs composite pair Hcompose).
  now apply (proj1 (min_multiplicity_glb _ pair c cs) (Nat.le_refl _)).
Qed.

Lemma compose_lower_bound_witness :
  TagSpec.multiplicity ("a", "x") (Tag.Tags_init [("a", ["x"])])
  <= TagSpec.multiplicity ("a", "x") (Tag.Tags_init [("a", ["x"; "x"])]).
Proof.
  apply (compose_lower_bound
           (Collection [Tag.Tags_init [("a", ["x"; "x"])];
                        Tag.Tags_init [("a", ["x"; "y"])]])).
  - reflexivity.
  - left. reflexivity.
Defined.

(** X5: composing in two levels is composing in one: the composite of the
    composites of two non-empty groups of components has the same pairs, the
    same number of times, as the composite of all the components, whether
    each group is given as a collection or as an iterator. *)
Theorem compose_of_composites (o1 o2 o12 o : bool)
    (c1 : Tag.Tags) (cs1 : list Tag.Tags)
    (c2 : Tag.Tags) (cs2 : list Tag.Tags) :
  exists t1 t2 t12 t,
    Tag.compose (iterable o1 (c1 :: cs1)) = Some t1 /\
    Tag.compose (iterable o2 (c2 :: cs2)) = Some t2 /\
    Tag.compose (iterable o12 [t1; t2]) = Some t12 /\
    Tag.compose (iterable o ((c1 :: cs1) ++ (c2 :: cs2))) = Some t /\
    forall pair, TagSpec.multiplicity pair t12 = TagSpec.multiplicity pair t.
Proof.
  pose proof (compose_cons_eq o1 c1 cs1) as E1.
  pose proof (compose_cons_eq o2 c2 cs2) as E2.
  pose proof (compose_cons_eq o c1 (cs1 ++ c2 :: cs2)) as E.
  destruct (Tag.compose (iterable o1 (c1 :: cs1))) as [t1|]; [|discriminate].
  destruct (Tag.compose (iterable o2 (c2 :: cs2))) as [t2|]; [|discriminate].
  pose proof (compose_cons_eq o12 t1 [t2]) as E12.
  destruct (Tag.compose (iterable o12 [t1; t2])) as [t12|] eqn:H12; [|discriminate].
  change ((c1 :: cs1) ++ c2 :: cs2) with (c1 :: cs1 ++ c2 :: cs2).
  destruct (Tag.compose (iterable o (c1 :: cs1 ++ c2 :: cs2))) as [t|] eqn:H;
    [|discriminate].
  exists t1, t2, t12, t.
  split; [reflexivity|]. split; [reflexivity|].
  split; [exact H12|]. split; [reflexivity|].
  intros pair.
  assert (M1 : TagSpec.multiplicity pair t1 = TagSpec.min_multiplicity pair c1 cs1).
  { apply (compose_cons_multiplicity o1). rewrite compose_cons_eq. now symmetry. }
  assert (M2 : TagSpec.multiplicity pair t2 = TagSpec.min_multiplicity pair c2 cs2).
  { apply (compose_cons_multiplicity o2). rewrite compose_cons_eq. now symmetry. }
  rewrite (compose_cons_multiplicity _ _ _ _ pair H12).
  rewrite (compose_cons_multiplicity _ _ _ _ pair H).
  apply le_iff_eq. intros n. rewrite !min_multiplicity_glb. split.
  - intros Hall c Hc.
    assert (H1 : n <= TagSpec.min_multiplicity pair c1 cs1)
      by (rewrite <- M1; apply Hall; now left).
    assert (H2 : n <= TagSpec.min_multiplicity pair c2 cs2)
      by (rewrite <- M2; apply Hall; right; now left).
    change (c1 :: cs1 ++ c2 :: cs2) with ((c1 :: cs1) ++ c2 :: cs2) in Hc.
    apply in_app_or in Hc as [Hc|Hc].
    + now apply (proj1 (min_multiplicity_glb n pair c1 cs1) H1).
    + now apply (proj1 (min_multiplicity_glb n pair c2 cs2) H2).
  - intros Hall x [<-|[<-|[]]].
    + rewrite M1. apply min_multiplicity_glb. intros c Hc. apply Hall.
      change (c1 :: cs1 ++ c2 :: cs2) with ((c1 :: cs1) ++ c2 :: cs2).
      apply in_or_app. now left.
    + rewrite M2. apply min_multiplicity_glb. intros c Hc. apply Hall.
      change (c1 :: cs1 ++ c2 :: cs2) with ((c1 :: cs1) ++ c2 :: cs2).
      apply in_or_app. now right.
Qed.

Section ComposeSingle.
Import Tag TagSpec.

Lemma get_app_last {K V} `{EqDec K} (d : dict K V) k v :
  ~ In k (keys d) -> get (d ++ [(k, v)]) k = Some v.
Proof.
  intros Hn. rewrite <- (set_not_in d k v Hn). apply get_set_eq.
Qed.

Lemma set_app_last {K V} `{EqDec K} (d : dict K V) k v v' :
  ~ In k (keys d) -> set (d ++ [(k, v)]) k v' = d ++ [(k, v')].
Proof.
  induction d as [|[k0 v0] d IH]; simpl; intros Hn.
  - destruct (eq_dec k k); congruence.
  - destruct (eq_dec k k0) as [->|Hne]; [tauto|]. rewrite IH by tauto. reflexivity.
Qed.

Lemma get_default_absent {K V} `{EqDec K} (d : dict K V) k default :
  ~ In k (keys d) -> get_default d k default = default.
Proof. intros Hn. unfold get_default. now rewrite (proj2 (get_None_iff d k) Hn). Qed.

Lemma get_default_app_last {K V} `{EqDec K} (d : dict K V) k v default :
  ~ In k (keys d) -> get_default (d ++ [(k, v)]) k default = v.
Proof. intros Hn. unfold get_default. now rewrite get_app_last. Qed.

(** A counter made from a list without repetition has every element once,
    in the order of the list, and gives the list back. *)
Lemma Counter_init_fold_NoDup {A} `{EqDec A} (l : list A) (acc : Counter A) :
  NoDup (keys acc ++ l) ->
  fold_left (fun c elem => set c elem (Counter_getitem c elem + 1)) l acc
  = acc ++ map (fun x => (x, 1)) l.
Proof.
  revert acc. induction l as [|x l IH]; simpl; intros acc Hnd.
  - now rewrite app_nil_r.
  - assert (Hx : ~ In x (keys acc)).
    { apply NoDup_remove_2 in Hnd. intros Hin. apply Hnd. apply in_or_app. now left. }
    rewrite (Counter_getitem_not_in acc x Hx), (set_not_in acc x _ Hx).
    rewrite IH.
    + now rewrite <- app_assoc.
    + unfold keys. rewrite map_app. simpl. now rewrite <- app_assoc.
Qed.

Lemma Counter_elements_once {A} (l : list A) :
  Counter_elements (map (fun x => (x, 1)) l) = l.
Proof.
  unfold Counter_elements, items.
  induction l as [|x l IH]; simpl; [reflexivity|now rewrite IH].
Qed.

Lemma Counter_elements_init_NoDup {A} `{EqDec A} (l : list A) :
  NoDup l -> Counter_elements (Counter_init l) = l.
Proof.
  intros Hl. unfold Counter_init.
  rewrite (Counter_init_fold_NoDup l []) by exact Hl.
  apply Counter_elements_once.
Qed.

Lemma tag_pairs_NoDup (t : Tags) :
  NoDup (keys t) ->
  (forall name values, In (name, values) (items t) -> NoDup values) ->
  NoDup (tag_pairs t).
Proof.
  unfold tag_pairs, items.
  induction t as [|[n vs] t IH]; simpl; intros Hnd Hvals; [constructor|].
  inversion Hnd as [|? ? Hn Ht]; subst.
  apply NoDup_app.
  - assert (Hvs : NoDup vs) by (apply (Hvals n); now left).
    clear -Hvs. induction Hvs as [|v vs Hv Hvs IH]; simpl; constructor; [|exact IH].
    intros Hin. apply in_map_iff in Hin as [v' [[= ->] Hin]]. contradiction.
  - apply IH; [exact Ht|]. intros name values Hin. apply (Hvals name). now right.
  - intros [n' v] Hin Hin'. apply in_map_iff in Hin as [v' [[= <- <-] _]].
    apply (in_tag_pairs n v' t) in Hin' as [values [Hitem _]].
    apply Hn. apply in_map_iff. now exists (n, values).
Qed.

Lemma group_by_name_same_name name (vs ws : list str)
    (acc : dict str (list str)) :
  ~ In name (keys acc) ->
  fold_left
    (fun tags pair => set tags (fst pair) (get_default tags (fst pair) [] ++ [snd pair]))
    (map (fun value => (name, value)) vs) (acc ++ [(name, ws)])
  = acc ++ [(name, ws ++ vs)].
Proof.
  intros Hn. revert ws. induction vs as [|v vs IH]; cbn [map fold_left]; intros ws.
  - now rewrite app_nil_r.
  - cbn [fst snd]. rewrite (get_default_app_last acc name ws [] Hn).
    rewrite (set_app_last acc name ws _ Hn), IH. now rewrite <- app_assoc.
Qed.

Lemma group_by_name_tag_pairs_fold (t : Tags) (acc : dict str (list str)) :
  NoDup (keys (acc ++ t)) ->
  (forall name values, In (name, values) (items t) -> values <> []) ->
  fold_left
    (fun tags pair => set tags (fst pair) (get_default tags (fst pair) [] ++ [snd pair]))
    (tag_pairs t) acc
  = acc ++ t.
Proof.
  unfold tag_pairs, items. revert acc.
  induction t as [|[n vs] t IH]; cbn [flat_map fold_left fst snd];
    intros acc Hnd Hvals.
  - now rewrite app_nil_r.
  - assert (Hn : ~ In n (keys acc)).
    { unfold keys in Hnd. rewrite map_app in Hnd. simpl in Hnd.
      apply NoDup_remove_2 in Hnd. intros Hin. apply Hnd. apply in_or_app. now left. }
    destruct vs as [|v vs]; [now destruct (Hvals n []); [left|]|].
    rewrite fold_left_app. cbn [map fold_left fst snd].
    rewrite (get_default_absent acc n [] Hn). cbn [app].
    rewrite (set_not_in acc n [v] Hn), (group_by_name_same_name n vs [v] acc Hn).
    rewrite IH.
    + now rewrite <- app_assoc.
    + now rewrite <- app_assoc.
    + intros name values Hin. apply (Hvals name). now right.
Qed.
End ComposeSingle.

(** X6: composing a single component that has every name once, no name
    without a value and no value twice under a name returns that component
    unchanged, from a collection as from an iterator. *)
Theorem compose_single_unchanged (one_shot : bool) (component : Tag.Tags) :
  NoDup (keys component) ->
  (forall name values,
      In (name, values) (items component) -> values <> [] /\ NoDup values) ->
  Tag.compose (iterable one_shot [component]) = Some component.
Proof.
  intros Hnd Hvals. rewrite compose_cons_eq. cbn [map fold_left]. f_equal.
  rewrite Counter_elements_init_NoDup.
  - unfold Tag.group_by_name.
    rewrite (group_by_name_tag_pairs_fold component []); [reflexivity|exact Hnd|].
    intros name values Hin. now apply (Hvals name).
  - apply tag_pairs_NoDup; [exact Hnd|].
    intros name values Hin. now apply (Hvals name).
Qed.

Lemma compose_single_unchanged_witness :
  Tag.compose (Iterator [Tag.Tags_init [("album", ["A"]); ("artist", ["p"; "q"])]])
  = Some (Tag.Tags_init [("album", ["A"]); ("artist", ["p"; "q"])]).
Proof.
  apply (compose_single_unchanged true).
  - repeat constructor; simpl; intuition discriminate.
  - intros name values [[= <- <-]|[[= <- <-]|[]]]; split; try discriminate;
      repeat constructor; simpl; intuition discriminate.
Defined.

(** Without those conditions a single component does change: equal values
    are brought together and a name without a value is dropped. *)
Example compose_single_regroups :
  Tag.compose (Collection [Tag.Tags_init [("a", ["x"; "y"; "x"]); ("b", [])]])
  = Some (Tag.Tags_init [("a", ["x"; "x"; "y"])]).
Proof. reflexivity. Qed.

(** ** [tag.py]: more on the accessors *)

Section TagsMore.
Import Tag TrackNumberSpec.

Lemma one_or_none_Some_iff self key v :
  one_or_none self key = Some v <-> Tags_getitem self key = Some [v].
Proof.
  split; [|apply one_or_none_single].
  unfold one_or_none, Tags_get.
  destruct (Tags_getitem self key) as [[|v0 [|v1 values]]|]; try discriminate.
  now intros [= ->].
Qed.

Lemma shape_digits ucd d :
  d <> "" -> all_digits ucd d = true -> shape ucd d = true.
Proof.
  intros Hne Hd. unfold shape.
  rewrite (all_digits_leading ucd d Hd), (all_digits_after ucd d Hd).
  destruct d; [contradiction|reflexivity].
Qed.

Lemma shape_leading_nonempty ucd v :
  shape ucd v = true -> leading_digits ucd v <> "".
Proof. unfold shape. destruct (leading_digits ucd v); [discriminate|discriminate]. Qed.

Lemma keys_set_iff {K V} `{EqDec K} (d : dict K V) k v x :
  In x (keys (set d k v)) <-> x = k \/ In x (keys d).
Proof.
  induction d as [|[k' v'] d IH]; simpl.
  - intuition.
  - destruct (eq_dec k k') as [->|Hne]; simpl; [intuition|].
    rewrite IH. intuition.
Qed.

Lemma keys_of_items {K V} `{EqDec K} (l acc : list (K * V)) x :
  In x (keys (fold_left (fun d kv => set d (fst kv) (snd kv)) l acc))
  <-> In x (keys acc) \/ In x (keys l).
Proof.
  revert acc. induction l as [|[k v] l IH]; simpl; intros acc; [intuition|].
  rewrite IH, keys_set_iff. intuition.
Qed.

Lemma of_items_keys_NoDup {K V} `{EqDec K} (l : list (K * V)) :
  NoDup (keys (of_items l)).
Proof.
  unfold of_items.
  apply (fold_left_invariant (fun d => NoDup (keys d))); [constructor|].
  intros d kv Hd. now apply NoDup_keys_set.
Qed.
End TagsMore.

(** X7: the track number is stable: tags whose only [TRACKNUMBER] value is
    the track number read from some tags have that same track number. *)
Theorem tracknumber_fixed_point (ucd : unicodedata) (self : Tag.Tags)
    (number : str) :
  Tag.tracknumber ucd self = Some number ->
  Tag.tracknumber ucd (Tag.Tags_init [("tracknumber", [number])]) = Some number.
Proof.
  intros Htn.
  assert (Hget : exists v, Tag.Tags_getitem self (Tag.Name Tag.TRACKNUMBER) = Some [v]).
  { unfold Tag.tracknumber in Htn.
    destruct (Tag.one_or_none self (Tag.Name Tag.TRACKNUMBER)) as [v|] eqn:Hone;
      [|discriminate].
    exists v. now apply one_or_none_Some_iff. }
  destruct Hget as [v Hget].
  rewrite (tracknumber_single _ _ _ Hget) in Htn. injection Htn as Hnumber.
  rewrite (tracknumber_single ucd (Tag.Tags_init [("tracknumber", [number])]) number
             eq_refl).
  f_equal.
  destruct (TrackNumberSpec.shape ucd v) eqn:Hshape.
  - subst number.
    rewrite shape_digits.
    + apply all_digits_leading, leading_all_digits.
    + now apply shape_leading_nonempty.
    + apply leading_all_digits.
  - subst number. now rewrite Hshape.
Qed.

Lemma tracknumber_fixed_point_witness :
  Tag.tracknumber TrackNumberSpec.with_arabic_indic
                  (Tag.Tags_init [("tracknumber", ["3"])]) = Some "3".
Proof.
  apply (tracknumber_fixed_point TrackNumberSpec.with_arabic_indic
           (Tag.Tags_init [("title", ["t"]); ("tracknumber", ["3/12"])])).
  reflexivity.
Defined.

(** X8: [tracknumber] is absent exactly when the [TRACKNUMBER] tag does not
    have exactly one value; a single value, whatever it is, always gives a
    track number. *)
Theorem tracknumber_absent_iff (ucd : unicodedata) (self : Tag.Tags) :
  Tag.tracknumber ucd self = None <->
  (forall v, Tag.Tags_getitem self (Tag.Name Tag.TRACKNUMBER) <> Some [v]).
Proof.
  split.
  - intros Hnone v Hget. rewrite (tracknumber_single _ _ _ Hget) in Hnone.
    discriminate.
  - intros Hnot. unfold Tag.tracknumber.
    destruct (Tag.one_or_none self (Tag.Name Tag.TRACKNUMBER)) as [v|] eqn:Hone;
      [|reflexivity].
    apply one_or_none_Some_iff in Hone. now destruct (Hnot v).
Qed.

(** X9: when [one_or_none] gives a value, [singular] gives that same value,
    whatever the default and the separator. *)
Theorem one_or_none_singular (self : Tag.Tags) (key : Tag.ArbitraryTagName)
    (v default separator : str) :
  Tag.one_or_none self key = Some v ->
  Tag.singular self key default separator = v.
Proof.
  intros Hone. apply one_or_none_Some_iff in Hone.
  now rewrite (singular_present _ _ _ _ _ Hone).
Qed.

Lemma one_or_none_singular_witness :
  Tag.singular (Tag.Tags_init [("album", ["A"])]) (Tag.Name Tag.ALBUM) "?" ", " = "A".
Proof. apply one_or_none_singular. reflexivity. Defined.

(** X10: building [Tags] gives every name once, keeps exactly the names of
    the mapping it is built from, and building [Tags] from [Tags] changes
    nothing. *)
Theorem Tags_init_idempotent (tags : dict str (list str)) :
  NoDup (keys (Tag.Tags_init tags)) /\
  Tag.Tags_init (Tag.Tags_init tags) = Tag.Tags_init tags /\
  (forall name,
      Tag.Tags_contains (Tag.Tags_init tags) (Tag.Str name) = contains tags name).
Proof.
  assert (Hnd : NoDup (keys (Tag.Tags_init tags))) by apply of_items_keys_NoDup.
  split; [exact Hnd|]. split.
  - unfold Tag.Tags_init at 1. now apply of_items_NoDup.
  - intros name. unfold Tag.Tags_contains. simpl.
    destruct (contains tags name) eqn:Hc.
    + apply contains_true_iff. apply contains_true_iff in Hc.
      unfold Tag.Tags_init, of_items, items. apply keys_of_items. now right.
    + destruct (contains (Tag.Tags_init tags) name) eqn:Hc'; [|reflexivity].
      apply contains_true_iff in Hc'.
      unfold Tag.Tags_init, of_items, items in Hc'.
      apply keys_of_items in Hc' as [[]|Hin].
      apply contains_true_iff in Hin. congruence.
Qed.

Local Close Scope str_scope.

(** ** [order.py]: more on the linear order *)

Section OrderMore.
Import Entity Order OrderSpec PlaySpec.

(** With the entry resolved, the step depends on where the token is last. *)
Lemma unit_in_same_entry_resolved self current units offset log :
  playable_units (playlist self) (playlist_entry current) = Return units ->
  _unit_in_same_entry self (Some current) offset log
  = match last_index (token (track current)) units with
    | Some index => (Return (unit_at units (Z.of_nat index + offset)), log)
    | None => (Raise (StopError (track_not_found current)), log)
    end.
Proof.
  intros Hunits.
  destruct (last_index (token (track current)) units) as [index|] eqn:Hl.
  - apply unit_in_same_entry_found; [exact Hunits|].
    now apply last_index_position.
  - unfold _unit_in_same_entry, bind, try_except, lift. rewrite Hunits.
    now rewrite token_index_last, Hl.
Qed.

Lemma handle_stop_error_resolved self current units offset error_policy log
    (function : LinearEntry * option PlayableUnit -> ErrorPolicy -> M (option PlayableUnit)) :
  (forall policy, function (self, Some current) policy
                  = _unit_in_same_entry self (Some current) offset) ->
  playable_units (playlist self) (playlist_entry current) = Return units ->
  handle_stop_error function (self, Some current) error_policy log
  = match last_index (token (track current)) units with
    | Some index => (Return (unit_at units (Z.of_nat index + offset)), log)
    | None =>
        match error_policy with
        | RAISE_STOP_ERROR => (Raise (StopError (track_not_found current)), log)
        | RETURN_NONE => (Return None, logged_stop log (track_not_found current))
        end
    end.
Proof.
  intros Hf Hunits. unfold handle_stop_error, try_except.
  rewrite Hf, (unit_in_same_entry_resolved _ _ _ _ _ Hunits).
  destruct (last_index (token (track current)) units); [reflexivity|].
  now destruct error_policy.
Qed.

Lemma next_resolved self current units error_policy log :
  playable_units (playlist self) (playlist_entry current) = Return units ->
  next self (Some current) error_policy log
  = match last_index (token (track current)) units with
    | Some index => (Return (unit_at units (Z.of_nat index + 1)), log)
    | None =>
        match error_policy with
        | RAISE_STOP_ERROR => (Raise (StopError (track_not_found current)), log)
        | RETURN_NONE => (Return None, logged_stop log (track_not_found current))
        end
    end.
Proof. apply handle_stop_error_resolved. reflexivity. Qed.

Lemma previous_resolved self current units error_policy log :
  playable_units (playlist self) (playlist_entry current) = Return units ->
  previous self (Some current) error_policy log
  = match last_index (token (track current)) units with
    | Some index => (Return (unit_at units (Z.of_nat index - 1)), log)
    | None =>
        match error_policy with
        | RAISE_STOP_ERROR => (Raise (StopError (track_not_found current)), log)
        | RETURN_NONE => (Return None, logged_stop log (track_not_found current))
        end
    end.
Proof. apply (handle_stop_error_resolved _ _ _ (-1)). reflexivity. Qed.

Lemma last_index_absent tok units :
  (forall unit, In unit units -> token (track unit) <> tok) ->
  last_index tok units = None.
Proof.
  induction units as [|u units IH]; simpl; intros Hall; [reflexivity|].
  rewrite IH by (intros unit Hin; apply Hall; now right).
  destruct (eq_dec (token (track u)) tok) as [Heq|Hne]; [|reflexivity].
  destruct (Hall u); [now left|exact Heq].
Qed.

(** Without a token twice, a unit of the list is found where it is. *)
Lemma last_index_NoDup units i unit :
  NoDup (tokens units) ->
  nth_error units i = Some unit ->
  last_index (token (track unit)) units = Some i.
Proof.
  intros Hnd Hi. apply last_index_position. split; [now exists unit|].
  intros j uj Hlt Hj Htok.
  assert (Hlen : i < length (tokens units)).
  { unfold tokens. rewrite length_map. apply nth_error_Some. congruence. }
  assert (Heq : nth_error (tokens units) i = nth_error (tokens units) j).
  { unfold tokens. rewrite !nth_error_map, Hi, Hj. simpl. now rewrite Htok. }
  pose proof (proj1 (NoDup_nth_error (tokens units)) Hnd i j Hlen Heq). lia.
Qed.

Lemma unit_at_In units i unit : unit_at units i = Some unit -> In unit units.
Proof.
  unfold unit_at. destruct (_ && _)%bool; [|discriminate]. apply nth_error_In.
Qed.

Lemma unit_at_nat units (i : nat) : unit_at units (Z.of_nat i) = nth_error units i.
Proof.
  unfold unit_at.
  destruct (nth_error units i) as [unit|] eqn:Hi.
  - assert (i < length units) by (apply nth_error_Some; congruence).
    replace ((0 <=? Z.of_nat i) && (Z.of_nat i <? Z.of_nat (length units)))%Z
      with true by (symmetry; apply andb_true_intro; split;
                    [apply Z.leb_le|apply Z.ltb_lt]; lia).
    now rewrite Nat2Z.id.
  - apply nth_error_None in Hi.
    replace (Z.of_nat i <? Z.of_nat (length units))%Z
      with false by (symmetry; apply Z.ltb_ge; lia).
    now rewrite andb_false_r.
Qed.

Lemma advance_None self steps error_policy log :
  advance self steps None error_policy log = (Return None, log).
Proof.
  induction steps as [|steps IH]; [reflexivity|].
  cbn [advance]. unfold bind.
  change (next self None error_policy log) with (@Return exn _ (@None PlayableUnit), log).
  exact IH.
Qed.
End OrderMore.

(** X11: when the entry resolves but none of its units has the current
    track's token (in particular when it resolves to no unit at all), [next]
    and [previous] raise the [StopError] that names the track and the library
    token under [RAISE_STOP_ERROR], and log it and return absent under the
    default policy. *)
Theorem linear_entry_track_not_found (self : Order.LinearEntry)
    (current : Entity.PlayableUnit) (units : list Entity.PlayableUnit)
    (log : Order.Log) :
  Order.playable_units (Order.playlist self) (Entity.playlist_entry current)
  = Return units ->
  (forall unit, In unit units ->
                Entity.token (Entity.track unit)
                <> Entity.token (Entity.track current)) ->
  Order.next self (Some current) Order.RAISE_STOP_ERROR log
  = (Raise (Order.StopError
              (Order.TrackNotFound (Entity.track current)
                 (Entity.library_token (Entity.playlist_entry current)))), log) /\
  Order.previous self (Some current) Order.RAISE_STOP_ERROR log
  = (Raise (Order.StopError
              (Order.TrackNotFound (Entity.track current)
                 (Entity.library_token (Entity.playlist_entry current)))), log) /\
  Order.next self (Some current) Order.DEFAULT log
  = (Return None, OrderSpec.logged_stop log (PlaySpec.track_not_found current)) /\
  Order.previous self (Some current) Order.DEFAULT log
  = (Return None, OrderSpec.logged_stop log (PlaySpec.track_not_found current)).
Proof.
  intros Hunits Hnone. apply last_index_absent in Hnone.
  rewrite !(next_resolved _ _ _ _ _ Hunits), !(previous_resolved _ _ _ _ _ Hunits).
  rewrite Hnone. repeat split.
Qed.

Lemma linear_entry_track_not_found_witness :
  Order.next OrderSpec.album_order (Some (OrderSpec.album_unit "t9"))
             Order.RAISE_STOP_ERROR []
  = (Raise (Order.StopError
              (Order.TrackNotFound (Entity.track (OrderSpec.album_unit "t9")) "album")),
     []) /\
  Order.next OrderSpec.album_order (Some (OrderSpec.album_unit "t9")) Order.DEFAULT []
  = (Return None,
     [("Stopping due to error.",
       Order.StopError
         (Order.TrackNotFound (Entity.track (OrderSpec.album_unit "t9")) "album"))]).
Proof.
  assert (H := linear_entry_track_not_found OrderSpec.album_order
                 (OrderSpec.album_unit "t9")
                 [OrderSpec.album_unit "t1"; OrderSpec.album_unit "t2";
                  OrderSpec.album_unit "t3"] [] eq_refl).
  split; apply H; intros unit [<-|[<-|[<-|[]]]]; discriminate.
Defined.

(** X12: an exception of the playlist lookup that is neither [KeyError] nor
    [StopError] goes through [next] and [previous] unchanged under either
    policy, and nothing is logged. *)
Theorem linear_entry_other_exception (self : Order.LinearEntry)
    (current : Entity.PlayableUnit) (e : Order.exn)
    (error_policy : Order.ErrorPolicy) (log : Order.Log) :
  Order.playable_units (Order.playlist self) (Entity.playlist_entry current)
  = Raise e ->
  e <> Order.KeyError ->
  (forall message, e <> Order.StopError message) ->
  Order.next self (Some current) error_policy log = (Raise e, log) /\
  Order.previous self (Some current) error_policy log = (Raise e, log).
Proof.
  intros Hunits Hkey Hstop.
  unfold Order.next, Order.previous, Order.handle_stop_error, try_except.
  cbn [Order.next_function Order.previous_function].
  unfold Order._unit_in_same_entry, bind, try_except, lift. rewrite Hunits.
  destruct e as [| |message|description];
    [contradiction| |now destruct (Hstop message)|]; now split.
Qed.

Lemma linear_entry_other_exception_witness :
  Order.next PlaySpec.broken_order (Some (OrderSpec.album_unit "t1")) Order.DEFAULT []
  = (Raise (Order.OtherError "database is locked"), []) /\
  Order.previous PlaySpec.broken_order (Some (OrderSpec.album_unit "t1")) Order.DEFAULT []
  = (Raise (Order.OtherError "database is locked"), []).
Proof.
  apply linear_entry_other_exception; [reflexivity|discriminate|discriminate].
Defined.

(** X13: under [RAISE_STOP_ERROR] a decorated function behaves exactly as
    the function run with [RAISE_STOP_ERROR]; under either policy every
    outcome of the function other than a [StopError] is passed on as it is,
    together with the function's log. *)
Theorem handle_stop_error_transparent {Args T : Type}
    (function : Args -> Order.ErrorPolicy -> Order.M (option T))
    (args : Args) (log : Order.Log) :
  Order.handle_stop_error function args Order.RAISE_STOP_ERROR log
  = function args Order.RAISE_STOP_ERROR log /\
  (forall error_policy outcome log',
      function args Order.RAISE_STOP_ERROR log = (outcome, log') ->
      (forall message, outcome <> Raise (Order.StopError message)) ->
      Order.handle_stop_error function args error_policy log = (outcome, log')).
Proof.
  unfold Order.handle_stop_error, try_except. split.
  - destruct (function args Order.RAISE_STOP_ERROR log) as [[v|e] log'];
      [reflexivity|now destruct e].
  - intros error_policy outcome log' -> Hstop.
    destruct outcome as [v|e]; [reflexivity|].
    destruct e as [| |message|description]; try reflexivity.
    now destruct (Hstop message).
Qed.

Lemma handle_stop_error_transparent_witness :
  Order.handle_stop_error Order.next_function
    (PlaySpec.broken_order, Some (OrderSpec.album_unit "t1")) Order.RETURN_NONE []
  = (Raise (Order.OtherError "database is locked"), []).
Proof.
  apply (proj2 (handle_stop_error_transparent Order.next_function
                  (PlaySpec.broken_order, Some (OrderSpec.album_unit "t1")) [])).
  - reflexivity.
  - discriminate.
Defined.

(** X14: in an entry whose units all belong to it and have different tokens,
    [previous] undoes [next] and [next] undoes [previous]: from the unit that
    [next] returns, [previous] returns the unit one started from, and the
    other way round. *)
Theorem next_previous_round_trip (self : Order.LinearEntry)
    (entry : Entity.PlaylistEntry) (units : list Entity.PlayableUnit)
    (index : nat) (current other : Entity.PlayableUnit)
    (error_policy : Order.ErrorPolicy) (log : Order.Log) :
  Order.playable_units (Order.playlist self) entry = Return units ->
  (forall unit, In unit units -> Entity.playlist_entry unit = entry) ->
  NoDup (PlaySpec.tokens units) ->
  nth_error units index = Some current ->
  (Order.next self (Some current) error_policy log = (Return (Some other), log) ->
   Order.previous self (Some other) error_policy log = (Return (Some current), log)) /\
  (Order.previous self (Some current) error_policy log = (Return (Some other), log) ->
   Order.next self (Some other) error_policy log = (Return (Some current), log)).
Proof.
  intros Hunits Hentry Hnd Hcurrent.
  assert (Hresolve : forall unit, In unit units ->
            Order.playable_units (Order.playlist self) (Entity.playlist_entry unit)
            = Return units).
  { intros unit Hin. now rewrite (Hentry unit Hin). }
  pose proof (Hresolve current (nth_error_In _ _ Hcurrent)) as Hc.
  rewrite (next_resolved _ _ _ _ _ Hc), (previous_resolved _ _ _ _ _ Hc).
  rewrite (last_index_NoDup _ _ _ Hnd Hcurrent).
  assert (Hindex : index < length units) by (apply nth_error_Some; congruence).
  split; intros [= Hother].
  - assert (Hpos : nth_error units (index + 1) = Some other).
    { rewrite <- unit_at_nat. now replace (Z.of_nat (index + 1)) with (Z.of_nat index + 1)%Z by lia. }
    rewrite (previous_resolved _ _ _ _ _ (Hresolve other (nth_error_In _ _ Hpos))).
    rewrite (last_index_NoDup _ _ _ Hnd Hpos).
    replace (Z.of_nat (index + 1) - 1)%Z with (Z.of_nat index) by lia.
    now rewrite unit_at_nat, Hcurrent.
  - destruct index as [|index'].
    { unfold OrderSpec.unit_at in Hother. simpl in Hother. discriminate. }
    assert (Hpos : nth_error units index' = Some other).
    { rewrite <- unit_at_nat. now replace (Z.of_nat index') with (Z.of_nat (S index') - 1)%Z by lia. }
    rewrite (next_resolved _ _ _ _ _ (Hresolve other (nth_error_In _ _ Hpos))).
    rewrite (last_index_NoDup _ _ _ Hnd Hpos).
    replace (Z.of_nat index' + 1)%Z with (Z.of_nat (S index')) by lia.
    now rewrite unit_at_nat, Hcurrent.
Qed.

Lemma next_previous_round_trip_witness :
  Order.previous OrderSpec.album_order (Some (OrderSpec.album_unit "t2")) Order.DEFAULT []
  = (Return (Some (OrderSpec.album_unit "t1")), []).
Proof.
  assert (Hentry : forall unit,
    In unit [OrderSpec.album_unit "t1"; OrderSpec.album_unit "t2";
             OrderSpec.album_unit "t3"] ->
    Entity.playlist_entry unit = OrderSpec.album_entry)
    by (intros unit [<-|[<-|[<-|[]]]]; reflexivity).
  assert (Hnd : NoDup (PlaySpec.tokens
                         [OrderSpec.album_unit "t1"; OrderSpec.album_unit "t2";
                          OrderSpec.album_unit "t3"]))
    by (repeat constructor; simpl; intuition discriminate).
  apply (proj1 (next_previous_round_trip OrderSpec.album_order OrderSpec.album_entry
                  _ 0 (OrderSpec.album_unit "t1") (OrderSpec.album_unit "t2")
                  Order.DEFAULT [] eq_refl Hentry Hnd eq_refl)).
  reflexivity.
Defined.

(** X15: a linear entry is played through in order and then stops: following
    [next] [steps] times from the first unit of an entry, whose units all
    belong to it and have different tokens, gives the unit at position
    [steps], and absent from the length of the entry on; nothing is raised or
    logged on the way. *)
Theorem linear_entry_plays_through (self : Order.LinearEntry)
    (entry : Entity.PlaylistEntry) (first : Entity.PlayableUnit)
    (others : list Entity.PlayableUnit) (steps : nat)
    (error_policy : Order.ErrorPolicy) (log : Order.Log) :
  Order.playable_units (Order.playlist self) entry = Return (first :: others) ->
  (forall unit, In unit (first :: others) -> Entity.playlist_entry unit = entry) ->
  NoDup (PlaySpec.tokens (first :: others)) ->
  PlaySpec.advance self steps (Some first) error_policy log
  = (Return (nth_error (first :: others) steps), log).
Proof.
  intros Hunits Hentry Hnd.
  set (units := first :: others) in *.
  assert (Hgen : forall steps index unit,
    nth_error units index = Some unit ->
    PlaySpec.advance self steps (Some unit) error_policy log
    = (Return (nth_error units (index + steps)), log)).
  { clear steps. induction steps as [|steps IH]; intros index unit Hunit.
    - simpl. now rewrite Nat.add_0_r, Hunit.
    - cbn [PlaySpec.advance]. unfold bind.
      assert (Hc : Order.playable_units (Order.playlist self)
                     (Entity.playlist_entry unit) = Return units)
        by (now rewrite (Hentry unit (nth_error_In _ _ Hunit))).
      rewrite (next_resolved _ _ _ _ _ Hc), (last_index_NoDup _ _ _ Hnd Hunit).
      replace (Z.of_nat index + 1)%Z with (Z.of_nat (S index)) by lia.
      rewrite unit_at_nat.
      replace (index + S steps) with (S index + steps) by lia.
      destruct (nth_error units (S index)) as [following|] eqn:Hnext.
      + now apply IH.
      + rewrite advance_None.
        assert (Hend : nth_error units (S index + steps) = None)
          by (apply nth_error_None; apply nth_error_None in Hnext; lia).
        now rewrite Hend. }
  apply (Hgen steps 0 first). reflexivity.
Qed.

Lemma linear_entry_plays_through_witness :
  PlaySpec.advance OrderSpec.album_order 2 (Some (OrderSpec.album_unit "t1"))
                   Order.DEFAULT []
  = (Return (Some (OrderSpec.album_unit "t3")), []) /\
  PlaySpec.advance OrderSpec.album_order 3 (Some (OrderSpec.album_unit "t1"))
                   Order.DEFAULT []
  = (Return None, []).
Proof.
  assert (Hentry : forall unit,
    In unit [OrderSpec.album_unit "t1"; OrderSpec.album_unit "t2";
             OrderSpec.album_unit "t3"] ->
    Entity.playlist_entry unit = OrderSpec.album_entry)
    by (intros unit [<-|[<-|[<-|[]]]]; reflexivity).
  assert (Hnd : NoDup (PlaySpec.tokens
                         [OrderSpec.album_unit "t1"; OrderSpec.album_unit "t2";
                          OrderSpec.album_unit "t3"]))
    by (repeat constructor; simpl; intuition discriminate).
  split.
  - apply (linear_entry_plays_through OrderSpec.album_order OrderSpec.album_entry
             _ _ 2 Order.DEFAULT [] eq_refl Hentry Hnd).
  - apply (linear_entry_plays_through OrderSpec.album_order OrderSpec.album_entry
             _ _ 3 Order.DEFAULT [] eq_refl Hentry Hnd).
Defined.

(** X16: a unit that [next] or [previous] returns is one of the units of the
    current unit's own entry; the order never leaves the entry. *)
Theorem linear_entry_stays_in_entry (self : Order.LinearEntry)
    (current unit : Entity.PlayableUnit) (units : list Entity.PlayableUnit)
    (error_policy : Order.ErrorPolicy) (log log' : Order.Log) :
  Order.playable_units (Order.playlist self) (Entity.playlist_entry current)
  = Return units ->
  Order.next self (Some current) error_policy log = (Return (Some unit), log') \/
  Order.previous self (Some current) error_policy log = (Return (Some unit), log') ->
  In unit units.
Proof.
  intros Hunits.
  rewrite (next_resolved _ _ _ _ _ Hunits), (previous_resolved _ _ _ _ _ Hunits).
  destruct (OrderSpec.last_index _ units) as [index|].
  - intros [[= Hat _]|[= Hat _]]; now apply unit_at_In in Hat.
  - destruct error_policy; intros [H|H]; discriminate H.
Qed.

Lemma linear_entry_stays_in_entry_witness :
  In (OrderSpec.album_unit "t2")
     [OrderSpec.album_unit "t1"; OrderSpec.album_unit "t2"; OrderSpec.album_unit "t3"].
Proof.
  apply (linear_entry_stays_in_entry OrderSpec.album_order (OrderSpec.album_unit "t1")
           (OrderSpec.album_unit "t2") _ Order.DEFAULT [] [] eq_refl).
  left. reflexivity.
Defined.

(** ** [screenshot_testlib.py]: more on saving screenshots *)

Section ScreenshotMore.
Import Pathlib ScreenshotTestlib ScreenshotSpec ScreenshotRuns.

Lemma set_same {K V} `{EqDec K} (d : dict K V) k v :
  get d k = Some v -> set d k v = d.
Proof.
  induction d as [|[k' v'] d IH]; simpl; [discriminate|].
  destruct (eq_dec k k') as [->|Hne]; [now intros [= ->]|].
  intros Hget. now rewrite IH.
Qed.

(** Up to the lookup of the variable, the call is one pass of the main loop. *)
Lemma register_widget_unset module_name screenshot_name widget w :
  get (environ w) "TEST_ARTIFACT_DIR" = None ->
  register_widget module_name screenshot_name widget w
  = (Return tt, after_main_loop w).
Proof.
  intros Hunset. unfold register_widget, bind, Gtk_main_once, os_getenv.
  cbn [environ]. now rewrite Hunset.
Qed.

Lemma register_widget_set module_name screenshot_name widget w artifact_dir :
  get (environ w) "TEST_ARTIFACT_DIR" = Some artifact_dir ->
  register_widget module_name screenshot_name widget w
  = bind (Path_mkdir (screenshots_path artifact_dir) true)
         (fun _ => write_to_png
                     (get_surface (show_all (add OffscreenWindow_new widget)))
                     (joinpath (screenshots_path artifact_dir)
                               (file_name module_name screenshot_name)))
         (after_main_loop w).
Proof.
  intros Hset. unfold register_widget at 1.
  unfold bind at 1, Gtk_main_once. unfold bind at 1, os_getenv.
  cbn [environ]. rewrite Hset. now rewrite joinpath_screenshots.
Qed.









Lemma Path_mkdir_keeps path exist_ok w :
  environ (snd (Path_mkdir path exist_ok w)) = environ w /\
  main_loop_runs (snd (Path_mkdir path exist_ok w)) = main_loop_runs w.
Proof.
  unfold Path_mkdir, try_except, os_mkdir.
  destruct (get (fs w) (parent path)) as [[|content]|].
  - destruct (get (fs w) path) as [node|] eqn:Hpath; [|now split].
    cbv beta iota delta [bind is_dir raise ret].
    destruct (negb exist_ok || negb _); now split.
  - cbv beta iota delta [bind is_dir raise ret].
    destruct (negb exist_ok || negb _); now split.
  - now split.
Qed.

Lemma write_to_png_keeps surface path w :
  environ (snd (write_to_png surface path w)) = environ w /\
  main_loop_runs (snd (write_to_png surface path w)) = main_loop_runs w.
Proof.
  unfold write_to_png.
  destruct (get (fs w) (parent path)) as [[|content]|];
    [destruct (get (fs w) path) as [[|content]|]| |]; now split.
Qed.
End ScreenshotMore.

Section ScreenshotExtras.
Import Pathlib ScreenshotTestlib ScreenshotSpec ScreenshotRuns.

(** X17: whatever the names, the widget and the world, and whether the call
    completes or raises, [register_widget] runs the main loop exactly once
    and leaves the environment as it was. *)
Theorem register_widget_one_pass (module_name screenshot_name : string)
    (widget : Widget) (w : World) :
  main_loop_runs (snd (register_widget module_name screenshot_name widget w))
  = S (main_loop_runs w) /\
  environ (snd (register_widget module_name screenshot_name widget w)) = environ w.
Proof.
  destruct (get (environ w) "TEST_ARTIFACT_DIR") as [artifact_dir|] eqn:Henv.
  - rewrite (register_widget_set _ _ _ _ _ Henv). unfold bind.
    pose proof (Path_mkdir_keeps (screenshots_path artifact_dir) true
                  (after_main_loop w)) as [Henviron Hruns].
    destruct (Path_mkdir (screenshots_path artifact_dir) true (after_main_loop w))
      as [[[]|e] w1]; cbn [snd] in *.
    + match goal with
      | |- context [write_to_png ?s ?p w1] =>
          pose proof (write_to_png_keeps s p w1) as [Henviron2 Hruns2]
      end.
      rewrite Hruns2, Henviron2, Hruns, Henviron. now split.
    + rewrite Hruns, Henviron. now split.
  - rewrite (register_widget_unset _ _ _ _ Henv). now split.
Qed.

(** X18: when [TEST_ARTIFACT_DIR] is a path with at least one component and
    without [..], all the paths above it are directories and the path itself
    names nothing, the call raises [FileNotFoundError] after its pass of the
    main loop and the file system is as before: no directory is made and no
    file written. *)
Theorem register_widget_no_directory (module_name screenshot_name : string)
    (widget : Widget) (w : World) (artifact_dir : string) :
  get (environ w) "TEST_ARTIFACT_DIR" = Some artifact_dir ->
  names (Path_init artifact_dir) <> [] ->
  ~ In ".." (names (Path_init artifact_dir)) ->
  (forall path, In path (ancestors (Path_init artifact_dir)) ->
                get (fs w) path = Some Dir) ->
  get (fs w) (Path_init artifact_dir) = None ->
  register_widget module_name screenshot_name widget w
  = (Raise FileNotFoundError, after_main_loop w).
Proof.
  intros Henv _ _ _ Hmissing. rewrite (register_widget_set _ _ _ _ _ Henv).
  unfold bind, Path_mkdir, try_except, os_mkdir.
  rewrite parent_screenshots. cbn [fs after_main_loop]. now rewrite Hmissing.
Qed.

Lemma register_widget_no_directory_witness :
  register_widget "pepper.ui" "blank" 0 world_without_directory
  = (Raise FileNotFoundError, after_main_loop world_without_directory).
Proof.
  apply (register_widget_no_directory _ _ _ _ "/nonexistent").
  - reflexivity.
  - discriminate.
  - simpl. intuition discriminate.
  - intros path [<-|[]]. reflexivity.
  - reflexivity.
Defined.

(** The paths above [/tmp/artifacts]. *)
Example ancestors_of_artifacts :
  ancestors (Path_init "/tmp/artifacts") = [Path_init "/"; Path_init "/tmp"].
Proof. reflexivity. Qed.

(** X19: when [screenshots] exists under the artifact directory but is a
    regular file, the call raises [FileExistsError] and the file system is as
    before: [exist_ok] only accepts an existing directory. *)
Theorem register_widget_screenshots_is_file (module_name screenshot_name : string)
    (widget : Widget) (w : World) (artifact_dir : string) (content : Png) :
  get (environ w) "TEST_ARTIFACT_DIR" = Some artifact_dir ->
  get (fs w) (Path_init artifact_dir) = Some Dir ->
  get (fs w) (screenshots_path artifact_dir) = Some (File content) ->
  register_widget module_name screenshot_name widget w
  = (Raise FileExistsError, after_main_loop w).
Proof.
  intros Henv Hdir Hfile. rewrite (register_widget_set _ _ _ _ _ Henv).
  unfold bind at 1. unfold Path_mkdir, try_except, os_mkdir.
  rewrite parent_screenshots. cbn [fs after_main_loop]. rewrite Hdir, Hfile.
  cbv beta iota delta [bind is_dir raise ret]. cbn [fs after_main_loop].
  now rewrite Hfile.
Qed.

Lemma register_widget_screenshots_is_file_witness :
  register_widget "pepper.ui" "blank" 0 world_with_file
  = (Raise FileExistsError, after_main_loop world_with_file).
Proof.
  apply (register_widget_screenshots_is_file _ _ _ _ "/tmp/artifacts"
           (screenshot_of 1)); reflexivity.
Defined.





(** The file name is the two names joined by a dot, so different pairs of
    names can give the same file. *)
Example file_name_collision :
  file_name "pepper.ui" "blank" = file_name "pepper" "ui.blank".
Proof. reflexivity. Qed.

End ScreenshotExtras.

Local Open Scope str_scope.

(** ** [tag.py]: the accessors on composed tags *)

Section ComposeAccessors.
Import Tag TagSpec.

Lemma In_get {K V} `{EqDec K} (d : dict K V) k v :
  NoDup (keys d) -> In (k, v) d -> get d k = Some v.
Proof.
  induction d as [|[k' v'] d IH]; simpl; intros Hnd Hin; [destruct Hin|].
  inversion Hnd as [|? ? Hk Hd]; subst.
  destruct Hin as [[= -> ->]|Hin].
  - destruct (eq_dec k k); congruence.
  - destruct (eq_dec k k') as [->|Hne]; [|now apply IH].
    exfalso. apply Hk. apply in_map_iff. now exists (k', v).
Qed.

Lemma count_occ_map_pair_eq (name : str) (values : list str) v :
  count_occ eq_dec (map (fun value => (name, value)) values) (name, v)
  = count_occ eq_dec values v.
Proof.
  induction values as [|v0 values IH]; simpl; [reflexivity|].
  rewrite IH.
  destruct (eq_dec (name, v0) (name, v)) as [Heq|Hne];
    destruct (eq_dec v0 v) as [Hv|Hv]; try reflexivity.
  - injection Heq as Heq. contradiction.
  - subst v0. now destruct Hne.
Qed.

Lemma count_occ_map_pair_neq (name name' : str) (values : list str) v :
  name <> name' ->
  count_occ eq_dec (map (fun value => (name, value)) values) (name', v) = 0.
Proof.
  intros Hne. apply count_occ_not_In. intros Hin.
  apply in_map_iff in Hin as [v' [[= Hn _] _]]. contradiction.
Qed.

(** With every name once, the pairs of a name are the values of its tuple. *)
Lemma multiplicity_item (t : Tags) name values v :
  NoDup (keys t) -> In (name, values) (items t) ->
  multiplicity (name, v) t = count_occ eq_dec values v.
Proof.
  unfold multiplicity, tag_pairs, items.
  induction t as [|[k vs] t IH]; simpl; intros Hnd Hin; [destruct Hin|].
  inversion Hnd as [|? ? Hk Ht]; subst. rewrite count_occ_app.
  destruct Hin as [[= -> ->]|Hin].
  - rewrite count_occ_map_pair_eq.
    assert (Hrest : count_occ eq_dec
                      (flat_map (fun item => map (fun value => (fst item, value))
                                                 (snd item)) t) (name, v) = 0).
    { apply count_occ_not_In. intros Hpair.
      apply (in_tag_pairs name v t) in Hpair as [values' [Hitem _]].
      apply Hk. apply in_map_iff. now exists (name, values'). }
    rewrite Hrest. lia.
  - assert (Hne : k <> name).
    { intros ->. apply Hk. apply in_map_iff. now exists (name, values). }
    rewrite (count_occ_map_pair_neq k name vs v Hne), (IH Ht Hin). reflexivity.
Qed.

Lemma min_multiplicity_constant pair c cs m :
  (forall c', In c' (c :: cs) -> multiplicity pair c' = m) ->
  min_multiplicity pair c cs = m.
Proof.
  intros Hall. apply le_iff_eq. intros n. rewrite min_multiplicity_glb. split.
  - intros Hn. rewrite <- (Hall c (or_introl eq_refl)). apply Hn. now left.
  - intros Hn c' Hin. now rewrite (Hall c' Hin).
Qed.

Lemma compose_keys_NoDup components composite :
  compose components = Some composite -> NoDup (keys composite).
Proof.
  intros Hcompose.
  destruct (compose_shape _ _ Hcompose) as [->|[pairs ->]];
    [constructor|apply group_by_name_NoDup].
Qed.

Lemma count_occ_singleton (values : list str) v :
  (forall x, count_occ eq_dec values x = if eq_dec v x then 1 else 0) ->
  values = [v].
Proof.
  intros Hcount. destruct values as [|a values].
  - specialize (Hcount v). simpl in Hcount. destruct (eq_dec v v); congruence.
  - assert (Ha : a = v).
    { destruct (eq_dec v a) as [->|Hne] eqn:Hdec; [reflexivity|].
      specialize (Hcount a). simpl in Hcount. rewrite Hdec in Hcount.
      destruct (eq_dec a a); [discriminate|contradiction]. }
    subst a. f_equal. destruct values as [|b values]; [reflexivity|].
    specialize (Hcount b). simpl in Hcount.
    destruct (eq_dec v b) as [->|Hne].
    + destruct (eq_dec b b); [discriminate|contradiction].
    + destruct (eq_dec b b); [discriminate|contradiction].
Qed.

(** With every name once, the values that a look-up gives are the pairs of
    the name. *)
Lemma value_count_multiplicity (t : Tags) name value :
  NoDup (keys t) -> value_count t name value = multiplicity (name, value) t.
Proof.
  intros Hnd. unfold value_count, Tags_get, Tags_getitem. cbn [_tag_name_str].
  unfold get_default.
  destruct (get t name) as [values|] eqn:Hget.
  - symmetry. apply multiplicity_item; [exact Hnd|]. now apply get_Some_In.
  - symmetry. apply count_occ_not_In. intros Hin.
    apply in_tag_pairs in Hin as [values [Hitem _]].
    apply get_None_iff in Hget. apply Hget. apply in_map_iff. now exists (name, values).
Qed.

Lemma min_value_count_multiplicity name value c cs :
  (forall c', In c' (c :: cs) -> NoDup (keys c')) ->
  min_value_count name value c cs = min_multiplicity (name, value) c cs.
Proof.
  unfold min_value_count, min_multiplicity.
  induction cs as [|c1 cs IH]; cbn [fold_right]; intros Hall.
  - apply value_count_multiplicity, Hall. now left.
  - rewrite IH.
    + f_equal. apply value_count_multiplicity, Hall. right. now left.
    + intros c' [<-|Hin]; apply Hall; [now left|right; now right].
Qed.

Lemma value_count_pos (t : Tags) name value :
  0 < value_count t name value <-> In value (Tags_get t (Str name) []).
Proof. unfold value_count. symmetry. apply count_occ_In. Qed.
End ComposeAccessors.

(** X22: when all the components, each with every name once, have the same
    single value for a tag, the composite has exactly that value for the tag:
    [one_or_none] and [singular] on the composite give it. *)
Theorem compose_common_single_value (one_shot : bool) (component : Tag.Tags)
    (others : list Tag.Tags) (composite : Tag.Tags) (key : Tag.ArbitraryTagName)
    (v : str) :
  Tag.compose (iterable one_shot (component :: others)) = Some composite ->
  (forall c, In c (component :: others) ->
             NoDup (keys c) /\ Tag.Tags_getitem c key = Some [v]) ->
  Tag.Tags_getitem composite key = Some [v] /\
  Tag.one_or_none composite key = Some v /\
  (forall default separator, Tag.singular composite key default separator = v).
Proof.
  intros Hcompose Hall.
  assert (Hget : Tag.Tags_getitem composite key = Some [v]).
  { unfold Tag.Tags_getitem in *. set (name := Tag._tag_name_str key) in *.
    assert (Hmult : forall x,
      TagSpec.multiplicity (name, x) composite = if eq_dec v x then 1 else 0).
    { intros x. rewrite (compose_cons_multiplicity _ _ _ _ _ Hcompose).
      apply min_multiplicity_constant. intros c Hin.
      destruct (Hall c Hin) as [Hnd Hc].
      rewrite (multiplicity_item c name [v] x Hnd (get_Some_In _ _ _ Hc)). simpl.
      destruct (str_EqDec v x), (eq_dec v x); congruence. }
    assert (Hin : In (name, v) (Tag.tag_pairs composite)).
    { apply multiplicity_pos. rewrite Hmult. destruct (eq_dec v v); [lia|congruence]. }
    apply in_tag_pairs in Hin as [values [Hitem _]].
    pose proof (compose_keys_NoDup _ _ Hcompose) as Hnd.
    rewrite (In_get composite name values Hnd Hitem). f_equal.
    apply count_occ_singleton. intros x.
    rewrite <- (multiplicity_item composite name values x Hnd Hitem). apply Hmult. }
  split; [exact Hget|]. split; [now apply one_or_none_single|].
  intros default separator. now rewrite (singular_present _ _ _ _ _ Hget).
Qed.

Lemma compose_common_single_value_witness :
  Tag.Tags_getitem (Tag.Tags_init [("album", ["A"])]) (Tag.Name Tag.ALBUM) = Some ["A"] /\
  Tag.one_or_none (Tag.Tags_init [("album", ["A"])]) (Tag.Name Tag.ALBUM) = Some "A" /\
  (forall default separator,
      Tag.singular (Tag.Tags_init [("album", ["A"])]) (Tag.Name Tag.ALBUM)
                   default separator = "A").
Proof.
  apply (compose_common_single_value false
           (Tag.Tags_init [("album", ["A"]); ("title", ["one"])])
           [Tag.Tags_init [("title", ["two"]); ("album", ["A"])]]).
  - reflexivity.
  - intros c [<-|[<-|[]]]; (split; [|reflexivity]);
      repeat constructor; simpl; intuition discriminate.
Defined.

(** X23: when two of the components have no value in common for a tag, the
    composite does not have the tag at all: [one_or_none] gives nothing,
    [singular] gives the default, and for [TRACKNUMBER] [tracknumber] is
    absent. *)
Theorem compose_no_common_value (ucd : unicodedata)
    (components : Iterable Tag.Tags) (composite : Tag.Tags)
    (key : Tag.ArbitraryTagName) (c1 c2 : Tag.Tags) :
  Tag.compose components = Some composite ->
  In c1 (elements components) ->
  In c2 (elements components) ->
  (forall v, In (Tag._tag_name_str key, v) (Tag.tag_pairs c1) ->
             ~ In (Tag._tag_name_str key, v) (Tag.tag_pairs c2)) ->
  Tag.Tags_contains composite key = false /\
  Tag.one_or_none composite key = None /\
  (forall default separator,
      Tag.singular composite key default separator = default) /\
  (key = Tag.Name Tag.TRACKNUMBER -> Tag.tracknumber ucd composite = None).
Proof.
  intros Hcompose Hin1 Hin2 Hdisjoint.
  assert (Habsent : Tag.Tags_getitem composite key = None).
  { unfold Tag.Tags_getitem. set (name := Tag._tag_name_str key) in *.
    destruct (get composite name) as [values|] eqn:Hget; [|reflexivity].
    exfalso. apply get_Some_In in Hget.
    pose proof (compose_items_nonempty _ _ _ _ Hcompose Hget) as Hne.
    destruct values as [|v values]; [contradiction|].
    assert (Hpair : In (name, v) (Tag.tag_pairs composite))
      by (apply in_tag_pairs; exists (v :: values); split; [exact Hget|now left]).
    destruct components as [o [|c cs]]; [destruct Hin1|].
    cbn [elements] in Hin1, Hin2.
    apply multiplicity_pos in Hpair.
    rewrite (compose_cons_multiplicity o c cs composite _ Hcompose) in Hpair.
    pose proof (proj1 (min_multiplicity_pos _ _ _) Hpair) as Hall.
    exact (Hdisjoint v (Hall c1 Hin1) (Hall c2 Hin2)). }
  split; [|split; [|split]].
  - unfold Tag.Tags_contains, contains. unfold Tag.Tags_getitem in Habsent.
    now rewrite Habsent.
  - now apply one_or_none_absent.
  - intros default separator. now apply singular_absent.
  - intros ->. unfold Tag.tracknumber. now rewrite one_or_none_absent.
Qed.

Lemma compose_no_common_value_witness :
  Tag.Tags_contains (Tag.Tags_init [("album", ["A"])]) (Tag.Name Tag.TRACKNUMBER) = false /\
  Tag.one_or_none (Tag.Tags_init [("album", ["A"])]) (Tag.Name Tag.TRACKNUMBER) = None /\
  (forall default separator,
      Tag.singular (Tag.Tags_init [("album", ["A"])]) (Tag.Name Tag.TRACKNUMBER)
                   default separator = default) /\
  (Tag.Name Tag.TRACKNUMBER = Tag.Name Tag.TRACKNUMBER ->
   Tag.tracknumber TrackNumberSpec.ascii_only
                   (Tag.Tags_init [("album", ["A"])]) = None).
Proof.
  apply (compose_no_common_value TrackNumberSpec.ascii_only
           (Collection
              [Tag.Tags_init [("album", ["A"]); ("tracknumber", ["1/2"])];
               Tag.Tags_init [("album", ["A"]); ("tracknumber", ["2/2"])]])
           _ _
           (Tag.Tags_init [("album", ["A"]); ("tracknumber", ["1/2"])])
           (Tag.Tags_init [("album", ["A"]); ("tracknumber", ["2/2"])])).
  - reflexivity.
  - left. reflexivity.
  - right. left. reflexivity.
  - intros v [H|[H|[]]] [H'|[H'|[]]]; try discriminate H; try discriminate H'.
    injection H as <-. discriminate H'.
Defined.

(** X24: for one or more components, each built as [Tags] are, given as a
    collection or as an iterator, [compose] returns tags with every name
    once in which looking a name up gives each value exactly the minimum
    number of times that looking the name up in the components gives it; so
    a value is under a name in the composite exactly when it is under that
    name in every component. *)
Theorem compose_multiset_intersection (one_shot : bool)
    (first : dict str (list str)) (others : list (dict str (list str))) :
  exists composite,
    Tag.compose (iterable one_shot (Tag.Tags_init first :: map Tag.Tags_init others))
    = Some composite /\
    NoDup (keys composite) /\
    (forall name value,
        TagSpec.value_count composite name value
        = TagSpec.min_value_count name value (Tag.Tags_init first)
                                  (map Tag.Tags_init others)) /\
    (forall name value,
        In value (Tag.Tags_get composite (Tag.Str name) []) <->
        (forall c, In c (Tag.Tags_init first :: map Tag.Tags_init others) ->
                   In value (Tag.Tags_get c (Tag.Str name) []))).
Proof.
  set (c := Tag.Tags_init first). set (cs := map Tag.Tags_init others).
  assert (Hall : forall c', In c' (c :: cs) -> NoDup (keys c')).
  { intros c' [<-|Hin]; [apply of_items_keys_NoDup|].
    apply in_map_iff in Hin as [tags [<- _]]. apply of_items_keys_NoDup. }
  pose proof (compose_cons_eq one_shot c cs) as Hcompose.
  destruct (Tag.compose (iterable one_shot (c :: cs))) as [composite|] eqn:Heq;
    [|discriminate].
  clear Hcompose. exists composite.
  pose proof (compose_keys_NoDup _ _ Heq) as Hnd.
  assert (Hcount : forall name value,
             TagSpec.value_count composite name value
             = TagSpec.min_value_count name value c cs).
  { intros name value.
    rewrite (value_count_multiplicity composite name value Hnd).
    rewrite (min_value_count_multiplicity name value c cs Hall).
    apply (compose_cons_multiplicity one_shot c cs composite _ Heq). }
  split; [reflexivity|]. split; [exact Hnd|]. split; [exact Hcount|].
  intros name value. rewrite <- value_count_pos, Hcount.
  rewrite (min_value_count_multiplicity name value c cs Hall).
  rewrite min_multiplicity_pos. split.
  - intros Hin c' Hc'. apply value_count_pos.
    rewrite (value_count_multiplicity c' name value (Hall c' Hc')).
    apply multiplicity_pos. now apply Hin.
  - intros Hin c' Hc'. apply multiplicity_pos.
    rewrite <- (value_count_multiplicity c' name value (Hall c' Hc')).
    apply value_count_pos. now apply Hin.
Qed.

(** The numbers of the composite of [{a: x x y, b: z}], [{a: y x x x}] and
    [{b: z, a: x y x}]: [x] twice and [y] once under [a], nothing under
    [b]. *)
Example compose_value_counts :
  exists composite,
    Tag.compose
      (Iterator [Tag.Tags_init [("a", ["x"; "x"; "y"]); ("b", ["z"])];
                 Tag.Tags_init [("a", ["y"; "x"; "x"; "x"])];
                 Tag.Tags_init [("b", ["z"]); ("a", ["x"; "y"; "x"])]])
    = Some composite /\
    TagSpec.value_count composite "a" "x" = 2 /\
    TagSpec.value_count composite "a" "y" = 1 /\
    TagSpec.value_count composite "b" "z" = 0 /\
    Tag.Tags_contains composite (Tag.Str "b") = false.
Proof. eexists. repeat split. Qed.

Local Close Scope str_scope.
